(** * Page Genius: Rocq model of the three UI controllers

    A shallow embedding of the state logic of [src/components/ChatBot.tsx]
    and [src/components/ImageGenerator.tsx] (which also holds the
    [Analyzer] component), with the JavaScript string primitives the
    components call ([trim], [split], [join], [includes]).

    React state is modelled by explicit state passing: every [setX] call of
    the source is an event, a handler is the list of its events in the order
    they take hold, and the component state after the handler is the fold of
    those events over the state before it.  A state updater is queued by its
    [setX] call and runs when React next renders; where an updater reads a
    variable that the handler changes in between, the text it writes is the
    one at the time it runs.  The generative-AI client, the host
    key-management capability and React's schedule are external: their
    behaviour on one call is an input of the handler. *)

From Equations Require Import Equations.
From Stdlib Require Import String Ascii List Arith NArith ZArith Bool Lia.
From Stdlib Require DecimalString DecimalNat.
Import ListNotations.

Set Implicit Arguments.

(** ** JavaScript strings *)

Module JS.

(** A JavaScript string is a sequence of UTF-16 code units. *)
Definition code_unit := N.
Definition jsstr := list code_unit.

(** A string literal of the source (ASCII only). *)
Definition lit (s : string) : jsstr :=
  map N_of_ascii (list_ascii_of_string s).

(** The line feed of ['\n']. *)
Definition LF : code_unit := 10%N.

(** Truthiness of a string: [!s] is true exactly for the empty string. *)
Definition truthy (s : jsstr) : bool :=
  match s with [] => false | _ :: _ => true end.

(** Truthiness of a possibly undefined string ([c.text], [response.text]). *)
Definition truthy_opt (o : option jsstr) : bool :=
  match o with None => false | Some s => truthy s end.

(** ECMAScript WhiteSpace and LineTerminator code points, the ones
    [String.prototype.trim] strips. *)
Definition is_white (c : code_unit) : bool :=
  (N.eqb c 9 || N.eqb c 10 || N.eqb c 11 || N.eqb c 12 || N.eqb c 13
   || N.eqb c 32 || N.eqb c 160 || N.eqb c 5760
   || (N.leb 8192 c && N.leb c 8202)
   || N.eqb c 8232 || N.eqb c 8233 || N.eqb c 8239 || N.eqb c 8287
   || N.eqb c 12288 || N.eqb c 65279)%N.

Fixpoint trimStart (s : jsstr) : jsstr :=
  match s with
  | [] => []
  | c :: s' => if is_white c then trimStart s' else s
  end.

Definition trimEnd (s : jsstr) : jsstr := rev (trimStart (rev s)).

(** [s.trim()] *)
Definition trim (s : jsstr) : jsstr := trimEnd (trimStart s).

Definition unit_eqb : code_unit -> code_unit -> bool := N.eqb.

(** [s.startsWith(p)] *)
Fixpoint startsWith (p s : jsstr) : bool :=
  match p, s with
  | [], _ => true
  | _ :: _, [] => false
  | a :: p', b :: s' => unit_eqb a b && startsWith p' s'
  end.

(** [s.includes(p)]: [p] occurs at some position of [s]. *)
Fixpoint includes (p s : jsstr) : bool :=
  startsWith p s ||
  match s with
  | [] => false
  | _ :: s' => includes p s'
  end.

(** Number of positions of [s] at which [p] occurs. *)
Fixpoint occurrences (p s : jsstr) : nat :=
  match s with
  | [] => 0
  | _ :: s' => (if startsWith p s then 1 else 0) + occurrences p s'
  end.

(** [s.split(sep)] for a non-empty separator, as ECMAScript defines it:
    scan from the left; where [sep] matches, close the current piece and
    resume after the match; otherwise move one code unit on.  [cur] is the
    piece being read, [s] what is left to scan. *)
Equations? split_from (sep cur s : jsstr) : list jsstr by wf (length s) lt :=
  split_from sep cur [] := [cur];
  split_from sep cur (c :: s') with startsWith sep (c :: s') => {
    | true := cur :: split_from sep [] (skipn (length sep - 1) s');
    | false := split_from sep (cur ++ [c]) s' }.
Proof.
  rewrite length_skipn. simpl. lia.
Qed.

Definition split (sep s : jsstr) : list jsstr := split_from sep [] s.

(** [pieces.join(sep)] *)
Fixpoint join (sep : jsstr) (pieces : list jsstr) : jsstr :=
  match pieces with
  | [] => []
  | [x] => x
  | x :: rest => x ++ sep ++ join sep rest
  end.

(** [xs.map((x, index) => f(index, x))], counting from [start]. *)
Fixpoint mapi_from {A B} (start : nat) (f : nat -> A -> B) (xs : list A)
  : list B :=
  match xs with
  | [] => []
  | x :: xs' => f start x :: mapi_from (S start) f xs'
  end.

Definition mapi {A B} (f : nat -> A -> B) (xs : list A) : list B :=
  mapi_from 0 f xs.

(** [a || b] on possibly undefined strings: [a] when truthy, else [b]. *)
Definition or_else (a : option jsstr) (b : jsstr) : jsstr :=
  match a with
  | Some s => if truthy s then s else b
  | None => b
  end.

(** What [JSON.stringify(v)] does: it returns text, returns [undefined]
    (for [undefined], functions and symbols), or throws (cyclic values,
    BigInt). *)
Inductive json_result :=
| JsonText (s : jsstr)
| JsonUndefined
| JsonThrows.

(** A thrown value, abstracted to what the components observe of it. *)
Record thrown := { json_stringify : json_result }.

(** A settled promise. *)
Inductive settled (A : Type) :=
| Fulfilled (a : A)
| Rejected (e : thrown).
Arguments Fulfilled {A} a.
Arguments Rejected {A} e.

(** How an async handler ends. *)
Inductive completion := Returns | Rejects.

End JS.

Import JS.

(** ** Chat controller ([src/components/ChatBot.tsx]) *)

Module ChatBot.

Inductive Role := user | model.

(** [ChatMessage] of [src/types.ts]; the timestamp is the epoch time of
    the [new Date()] that built it. *)
Record ChatMessage := {
  role : Role;
  text : jsstr;
  timestamp : Z
}.

(** The conversation handle [ai.chats.create] returns. *)
Record Chat := {
  chat_model : jsstr;
  systemInstruction : jsstr
}.

(** The component state: the three [useState] cells and [chatRef]. *)
Record State := {
  messages : list ChatMessage;
  input : jsstr;
  isTyping : bool;
  chatRef : option Chat
}.

Definition initial : State :=
  {| messages := []; input := []; isTyping := false; chatRef := None |}.

(** One chunk of the stream; [c.text] may be undefined. *)
Record Chunk := { chunk_text : option jsstr }.

Inductive StreamEnd :=
| Completes
| Breaks (e : thrown).

(** What the collaborator does on one [sendMessageStream] call: the call
    itself rejects, or it yields chunks and then ends or throws. *)
Inductive Reply :=
| OpenFails (e : thrown)
| Opened (chunks : list Chunk) (fin : StreamEnd).

(** What one run of [handleSend] meets outside: the clock at each
    [new Date()], the collaborator's reply, and React's schedule.  An
    updater passed to [setMessages] is queued and runs when React next
    renders.  [flushes] says, for each chunk that carries text, in order,
    whether React renders before the loop reads the next chunk ([true]) or
    leaves the updaters queued ([false]); past the end of the list it
    renders each time. *)
Record Turn := {
  now_user : Z;
  now_placeholder : Z;
  now_error : Z;
  reply : Reply;
  flushes : list bool
}.

(** The effects of the component, in the order they take hold. *)
Inductive Event :=
| SetChatRef (c : Chat)                (* chatRef.current = ... *)
| SetMessages (ms : list ChatMessage)  (* setMessages([...]) *)
| Append (m : ChatMessage)             (* setMessages(prev => [...prev, m]) *)
| UpdateLast (txt : jsstr)             (* newArr[newArr.length - 1].text = txt *)
| SetInput (s : jsstr)
| SetIsTyping (b : bool)
| SendMessageStream (message : jsstr)  (* the request to the collaborator *)
| ConsoleError (label : jsstr) (e : thrown).

Definition set_text (m : ChatMessage) (txt : jsstr) : ChatMessage :=
  {| role := role m; text := txt; timestamp := timestamp m |}.

(** The updater of the streaming loop: copy the array and assign the text
    of the entry at the last index.  The entry object is shared with the
    previous array, which React no longer shows.  On an empty array
    [newArr[-1]] is undefined and the assignment throws: [None]. *)
Fixpoint update_last (txt : jsstr) (prev : list ChatMessage)
  : option (list ChatMessage) :=
  match prev with
  | [] => None
  | [m] => Some [set_text m txt]
  | m :: rest =>
      match update_last txt rest with
      | Some rest' => Some (m :: rest')
      | None => None
      end
  end.

(** One effect on the component state; [None] is the uncaught TypeError
    of an updater. *)
Definition apply (e : Event) (st : State) : option State :=
  match e with
  | SetChatRef c =>
      Some {| messages := messages st; input := input st;
              isTyping := isTyping st; chatRef := Some c |}
  | SetMessages ms =>
      Some {| messages := ms; input := input st;
              isTyping := isTyping st; chatRef := chatRef st |}
  | Append m =>
      Some {| messages := messages st ++ [m]; input := input st;
              isTyping := isTyping st; chatRef := chatRef st |}
  | UpdateLast txt =>
      match update_last txt (messages st) with
      | Some ms => Some {| messages := ms; input := input st;
                           isTyping := isTyping st; chatRef := chatRef st |}
      | None => None
      end
  | SetInput s =>
      Some {| messages := messages st; input := s;
              isTyping := isTyping st; chatRef := chatRef st |}
  | SetIsTyping b =>
      Some {| messages := messages st; input := input st;
              isTyping := b; chatRef := chatRef st |}
  | SendMessageStream _ => Some st
  | ConsoleError _ _ => Some st
  end.

Fixpoint run (evs : list Event) (st : State) : option State :=
  match evs with
  | [] => Some st
  | e :: evs' =>
      match apply e st with
      | Some st' => run evs' st'
      | None => None
      end
  end.

Definition TUTOR_MODEL : jsstr := lit "gemini-3-pro-preview".
Definition TUTOR_INSTRUCTION : jsstr :=
  lit "You are a helpful, encouraging, and knowledgeable tutor. You help students understand complex topics from their textbooks. Keep answers concise but complete.".
Definition GREETING : jsstr :=
  lit "Hello! I'm your Page Genius tutor. Do you have questions about a specific topic or problem?".
Definition APOLOGY : jsstr :=
  lit "I'm sorry, I'm having trouble connecting right now. Please try again.".
Definition CHAT_ERROR : jsstr := lit "Chat error".

(** The mount effect: create the conversation handle, set the greeting. *)
Definition mount (now : Z) : list Event :=
  [ SetChatRef {| chat_model := TUTOR_MODEL;
                  systemInstruction := TUTOR_INSTRUCTION |};
    SetMessages [ {| role := model; text := GREETING; timestamp := now |} ] ].

Definition userMsg (t : Turn) (st : State) : ChatMessage :=
  {| role := user; text := input st; timestamp := now_user t |}.

Definition placeholder (t : Turn) : ChatMessage :=
  {| role := model; text := []; timestamp := now_placeholder t |}.

Definition apology (t : Turn) : ChatMessage :=
  {| role := model; text := APOLOGY; timestamp := now_error t |}.

(** The [for await] loop.  [acc] is [fullResponseText] and [pending]
    counts the updaters queued and not yet run.  The updater assigns
    [fullResponseText] as it is when React runs it, not as it was at the
    [setMessages] call, so the updaters of one batch all write the same,
    latest text.  When the loop is over, because the stream ended or threw,
    React runs what is left in the queue. *)
Fixpoint stream_loop (acc : jsstr) (pending : nat) (chunks : list Chunk)
    (sched : list bool) : list Event :=
  match chunks with
  | [] => repeat (UpdateLast acc) pending
  | c :: rest =>
      match chunk_text c with
      | Some txt =>
          if truthy txt
          then if hd true sched
               then repeat (UpdateLast (acc ++ txt)) (S pending)
                    ++ stream_loop (acc ++ txt) 0 rest (tl sched)
               else stream_loop (acc ++ txt) (S pending) rest (tl sched)
          else stream_loop acc pending rest sched
      | None => stream_loop acc pending rest sched
      end
  end.

(** The [catch] block. *)
Definition on_error (t : Turn) (e : thrown) : list Event :=
  [ ConsoleError CHAT_ERROR e; Append (apology t) ].

(** [handleSend]. *)
Definition handleSend (t : Turn) (st : State) : list Event :=
  if negb (truthy (trim (input st))) then []
  else match chatRef st with
  | None => []
  | Some _ =>
      [ Append (userMsg t st); SetInput []; SetIsTyping true;
        SendMessageStream (text (userMsg t st)) ]
      ++ match reply t with
         | OpenFails e => on_error t e
         | Opened chunks fin =>
             Append (placeholder t)
             :: stream_loop [] 0 chunks (flushes t)
             ++ match fin with
                | Completes => []
                | Breaks e => on_error t e
                end
         end
      ++ [ SetIsTyping false ]
  end.

End ChatBot.

(** ** Image generator controller ([src/components/ImageGenerator.tsx]) *)

Module ImageGenerator.

(** [ImageResolution] of [src/types.ts]. *)
Inductive ImageResolution := RES_1K | RES_2K | RES_4K.

Record State := {
  prompt : jsstr;
  resolution : ImageResolution;
  generatedImages : list jsstr;
  isLoading : bool;
  hasApiKey : bool
}.

(** The [useState] initial values; the key is assumed present. *)
Definition initial : State :=
  {| prompt := []; resolution := RES_1K; generatedImages := [];
     isLoading := false; hasApiKey := true |}.

(** [window.aistudio]: each method may be missing, and a call settles. *)
Record AIStudio := {
  hasSelectedApiKey : option (settled bool);
  openSelectKey : option (settled unit)
}.

(** The response of [generateContent], as far as the handler reads it;
    every field is optional in the client's types. *)
Record Blob := { mimeType : option jsstr; data : option jsstr }.
Record Part := { inlineData : option Blob; part_text : option jsstr }.
Record Content := { parts : option (list Part) }.
Record Candidate := { content : option Content }.
Record Response := { candidates : option (list Candidate) }.

Inductive Outcome :=
| Responds (r : Response)
| Throws (e : thrown).

Inductive Event :=
| SetPrompt (s : jsstr)
| SetResolution (r : ImageResolution)
| SetGeneratedImages (imgs : list jsstr)
| SetIsLoading (b : bool)
| SetHasApiKey (b : bool)
| CallHasSelectedApiKey
| CallOpenSelectKey
| GenerateContent (prompt : jsstr) (imageSize : ImageResolution)
| ConsoleError (label : jsstr) (e : thrown).

Definition apply (e : Event) (st : State) : State :=
  match e with
  | SetPrompt s =>
      {| prompt := s; resolution := resolution st;
         generatedImages := generatedImages st;
         isLoading := isLoading st; hasApiKey := hasApiKey st |}
  | SetResolution r =>
      {| prompt := prompt st; resolution := r;
         generatedImages := generatedImages st;
         isLoading := isLoading st; hasApiKey := hasApiKey st |}
  | SetGeneratedImages imgs =>
      {| prompt := prompt st; resolution := resolution st;
         generatedImages := imgs;
         isLoading := isLoading st; hasApiKey := hasApiKey st |}
  | SetIsLoading b =>
      {| prompt := prompt st; resolution := resolution st;
         generatedImages := generatedImages st;
         isLoading := b; hasApiKey := hasApiKey st |}
  | SetHasApiKey b =>
      {| prompt := prompt st; resolution := resolution st;
         generatedImages := generatedImages st;
         isLoading := isLoading st; hasApiKey := b |}
  | CallHasSelectedApiKey | CallOpenSelectKey
  | GenerateContent _ _ | ConsoleError _ _ => st
  end.

Definition run (evs : list Event) (st : State) : State :=
  fold_left (fun s e => apply e s) evs st.

(** [checkApiKey], run by the mount effect. *)
Definition checkApiKey (w : option AIStudio) : list Event :=
  match w with
  | Some a =>
      match hasSelectedApiKey a with
      | Some (Fulfilled hasKey) => [ CallHasSelectedApiKey; SetHasApiKey hasKey ]
      | Some (Rejected _) => [ CallHasSelectedApiKey ]
      | None => []
      end
  | None => []
  end.

(** [handleConnectKey] up to its [await]: the call of [openSelectKey]. *)
Definition handleConnectKey_call (w : option AIStudio) : list Event :=
  match w with
  | Some a =>
      match openSelectKey a with
      | Some _ => [ CallOpenSelectKey ]
      | None => []
      end
  | None => []
  end.

(** [handleConnectKey] after its [await]: success is assumed. *)
Definition handleConnectKey_resume (w : option AIStudio) : list Event :=
  match w with
  | Some a =>
      match openSelectKey a with
      | Some (Fulfilled _) => [ SetHasApiKey true ]
      | Some (Rejected _) => []
      | None => []
      end
  | None => []
  end.

Definition handleConnectKey (w : option AIStudio) : list Event :=
  handleConnectKey_call w ++ handleConnectKey_resume w.

Definition DEFAULT_MIME : jsstr := lit "image/png".
Definition AUTH_MARKER : jsstr := lit "Requested entity was not found".
Definition GENERATION_FAILED : jsstr := lit "Image generation failed".

(** The template literal pushed for one part. *)
Definition data_url (b : Blob) (payload : jsstr) : jsstr :=
  lit "data:" ++ or_else (mimeType b) DEFAULT_MIME ++ lit ";base64," ++ payload.

(** The loop over the parts: a part gives an image when it has
    [inlineData] and a truthy [inlineData.data]. *)
Fixpoint collect (ps : list Part) : list jsstr :=
  match ps with
  | [] => []
  | p :: rest =>
      match inlineData p with
      | Some b =>
          match data b with
          | Some d => if truthy d then data_url b d :: collect rest
                      else collect rest
          | None => collect rest
          end
      | None => collect rest
      end
  end.

(** [response.candidates?.[0]?.content?.parts] *)
Definition first_parts (r : Response) : option (list Part) :=
  match candidates r with
  | Some (c :: _) =>
      match content c with
      | Some ct => parts ct
      | None => None
      end
  | Some [] => None
  | None => None
  end.

Definition images_of (r : Response) : list jsstr :=
  match first_parts r with
  | Some ps => collect ps
  | None => []
  end.

(** The test of the [catch] block,
    [JSON.stringify(error).includes(...)]: [None] when it throws (the
    serialization throws, or is undefined and [.includes] throws). *)
Definition auth_test (e : thrown) : option bool :=
  match json_stringify e with
  | JsonText s => Some (includes AUTH_MARKER s)
  | JsonUndefined => None
  | JsonThrows => None
  end.

(** One run of [handleGenerate]: the effects up to the point where the
    handler settles, how it settles, and the effects of the
    [handleConnectKey] it started without awaiting, which come later. *)
Record Run := {
  effects : list Event;
  ending : completion;
  deferred : list Event
}.

Definition handleGenerate (w : option AIStudio) (o : Outcome) (st : State)
  : Run :=
  if negb (truthy (trim (prompt st))) then
    {| effects := []; ending := Returns; deferred := [] |}
  else
    let start := [ SetIsLoading true; SetGeneratedImages [];
                   GenerateContent (prompt st) (resolution st) ] in
    match o with
    | Responds r =>
        {| effects := start ++ [ SetGeneratedImages (images_of r);
                                 SetIsLoading false ];
           ending := Returns; deferred := [] |}
    | Throws e =>
        match auth_test e with
        | Some true =>
            {| effects := start ++ [ ConsoleError GENERATION_FAILED e;
                                     SetHasApiKey false ]
                          ++ handleConnectKey_call w
                          ++ [ SetIsLoading false ];
               ending := Returns;
               deferred := handleConnectKey_resume w |}
        | Some false =>
            {| effects := start ++ [ ConsoleError GENERATION_FAILED e;
                                     SetIsLoading false ];
               ending := Returns; deferred := [] |}
        | None =>
            {| effects := start ++ [ ConsoleError GENERATION_FAILED e;
                                     SetIsLoading false ];
               ending := Rejects; deferred := [] |}
        end
    end.

End ImageGenerator.

(** ** Analyzer controller (second half of [src/components/ImageGenerator.tsx]) *)

Module Analyzer.

(** The chosen file: its MIME type and its bytes. *)
Record File := { file_type : jsstr; bytes : list N }.

Record State := {
  file : option File;
  previewUrl : option jsstr;
  isAnalyzing : bool;
  result : option jsstr
}.

Definition initial : State :=
  {| file := None; previewUrl := None; isAnalyzing := false; result := None |}.

Definition COMMA : code_unit := 44%N.

(** How the [FileReader] ends: [loadend] with [reader.result] a string or
    not, or [error] first. *)
Inductive ReaderOutcome :=
| LoadEnd (reader_result : option jsstr)
| ReadError (e : thrown).

(** [new Error("Failed to convert blob to base64")]; an [Error] has no
    enumerable property, so it serializes to the empty object. *)
Definition conversion_error : thrown :=
  {| json_stringify := JsonText (lit "{}") |}.

(** [blobToBase64]: the promise settles with [reader.result.split(',')[1]],
    which is undefined when the text has no comma. *)
Definition blobToBase64 (r : ReaderOutcome) : settled (option jsstr) :=
  match r with
  | LoadEnd (Some s) => Fulfilled (nth_error (split [COMMA] s) 1)
  | LoadEnd None => Rejected conversion_error
  | ReadError e => Rejected e
  end.

(** What the collaborator does with the request: it throws, or it returns
    a response whose [text] may be undefined. *)
Inductive RequestOutcome :=
| RequestThrows (e : thrown)
| Returns (response_text : option jsstr).

(** What one run of [handleAnalyze] meets outside: how the reader of
    [blobToBase64] ends and, when a request is made, what comes of it. *)
Record Outcome := {
  reader : ReaderOutcome;
  request : RequestOutcome
}.

Inductive Event :=
| SetFile (f : File)
| SetPreviewUrl (u : jsstr)
| SetIsAnalyzing (b : bool)
| SetResult (r : option jsstr)
| GenerateContent (mime : jsstr) (base64Data : option jsstr)
| ConsoleError (label : jsstr) (e : thrown).

Definition apply (e : Event) (st : State) : State :=
  match e with
  | SetFile f =>
      {| file := Some f; previewUrl := previewUrl st;
         isAnalyzing := isAnalyzing st; result := result st |}
  | SetPreviewUrl u =>
      {| file := file st; previewUrl := Some u;
         isAnalyzing := isAnalyzing st; result := result st |}
  | SetIsAnalyzing b =>
      {| file := file st; previewUrl := previewUrl st;
         isAnalyzing := b; result := result st |}
  | SetResult r =>
      {| file := file st; previewUrl := previewUrl st;
         isAnalyzing := isAnalyzing st; result := r |}
  | GenerateContent _ _ | ConsoleError _ _ => st
  end.

Definition run (evs : list Event) (st : State) : State :=
  fold_left (fun s e => apply e s) evs st.

Definition ANALYSIS_FAILED : jsstr := lit "Analysis failed".
Definition ANALYSIS_ERROR : jsstr :=
  lit "Sorry, I encountered an error analyzing the image. Please try again.".

(** [handleFileChange] with a chosen file and its object URL. *)
Definition handleFileChange (f : File) (url : jsstr) : list Event :=
  [ SetFile f; SetPreviewUrl url; SetResult None ].

(** [handleAnalyze]. *)
Definition handleAnalyze (o : Outcome) (st : State) : list Event :=
  match file st with
  | None => []
  | Some f =>
      [ SetIsAnalyzing true; SetResult None ]
      ++ match blobToBase64 (reader o) with
         | Rejected e =>
             [ ConsoleError ANALYSIS_FAILED e; SetResult (Some ANALYSIS_ERROR) ]
         | Fulfilled base64Data =>
             GenerateContent (file_type f) base64Data
             :: match request o with
                | RequestThrows e =>
                    [ ConsoleError ANALYSIS_FAILED e;
                      SetResult (Some ANALYSIS_ERROR) ]
                | Returns txt =>
                    if truthy_opt txt then [ SetResult txt ] else []
                end
         end
      ++ [ SetIsAnalyzing false ]
  end.

(** One rendered section: the [key], the heading and the boxed body. *)
Record Section := { key : nat; title : jsstr; body : jsstr }.

Definition DELIMITER : jsstr := lit "## ".

(** The callback of the [map] in the JSX: [null] at index 0, else the
    section built from [section.split('\n')]. *)
Definition render_section (index : nat) (section : jsstr) : option Section :=
  if Nat.eqb index 0 then None
  else
    let pieces := split [LF] section in
    Some {| key := index;
            title := trim (hd [] pieces);
            body := trim (join [LF] (tl pieces)) |}.

(** [result.split('## ').map(...)]. *)
Definition render_sections (text : jsstr) : list (option Section) :=
  mapi render_section (split DELIMITER text).

(** What React shows of a list of elements: the non-null ones. *)
Fixpoint shown {A} (xs : list (option A)) : list A :=
  match xs with
  | [] => []
  | Some x :: xs' => x :: shown xs'
  | None :: xs' => shown xs'
  end.

(** The sections on screen for a stored result: the block is rendered
    only under [result && ...]. *)
Definition displayed (r : option jsstr) : list Section :=
  match r with
  | Some text => if truthy text then shown (render_sections text) else []
  | None => []
  end.

End Analyzer.

(** ** Vocabulary of the statements

  Notions the properties are stated with.  They are written directly from
  what they mean, not from the handlers, and the theorems relate the two. *)

Module Lines.

(** The text up to the first line feed. *)
Fixpoint first_line (s : jsstr) : jsstr :=
  match s with
  | [] => []
  | c :: s' => if unit_eqb c LF then [] else c :: first_line s'
  end.

(** The text after the first line feed (empty when there is none). *)
Fixpoint rest_lines (s : jsstr) : jsstr :=
  match s with
  | [] => []
  | c :: s' => if unit_eqb c LF then s' else rest_lines s'
  end.

(** A list of numbers that never goes down. *)
Definition nondecreasing (l : list nat) : Prop :=
  forall i j a b, i <= j ->
    nth_error l i = Some a -> nth_error l j = Some b -> a <= b.

(** The last element of a list, when there is one. *)
Fixpoint final {A} (l : list A) : option A :=
  match l with
  | [] => None
  | [x] => Some x
  | _ :: rest => final rest
  end.

(** Position of the first element satisfying [p]. *)
Fixpoint index_where {A} (p : A -> bool) (l : list A) : option nat :=
  match l with
  | [] => None
  | x :: rest =>
      if p x then Some 0
      else match index_where p rest with
           | Some i => Some (S i)
           | None => None
           end
  end.

End Lines.

Import Lines.

Module ChatSpec.
Import ChatBot.

(** The text fragments of a stream: the chunks that carry text. *)
Fixpoint fragments (chunks : list Chunk) : list jsstr :=
  match chunks with
  | [] => []
  | c :: rest =>
      match chunk_text c with
      | Some txt => if truthy txt then txt :: fragments rest
                    else fragments rest
      | None => fragments rest
      end
  end.

(** The text of the last transcript entry. *)
Definition last_text (st : State) : option jsstr :=
  option_map text (final (messages st)).

Definition last_length (st : State) : nat :=
  match last_text st with
  | Some s => length s
  | None => 0
  end.

(** The states right after each fragment update of a run. *)
Fixpoint snapshots (evs : list Event) (st : State) : list State :=
  match evs with
  | [] => []
  | e :: evs' =>
      match apply e st with
      | None => []
      | Some st' =>
          match e with
          | UpdateLast _ => st' :: snapshots evs' st'
          | _ => snapshots evs' st'
          end
      end
  end.

(** The request to the collaborator. *)
Definition is_request (e : Event) : bool :=
  match e with
  | SendMessageStream _ => true
  | _ => false
  end.

(** A model message without text. *)
Definition is_empty_model (m : ChatMessage) : bool :=
  match role m, text m with
  | model, [] => true
  | _, _ => false
  end.

(** The append of the empty placeholder. *)
Definition is_placeholder (e : Event) : bool :=
  match e with
  | Append m => is_empty_model m
  | _ => false
  end.

(** An update of the last entry by the streaming loop. *)
Definition is_update (e : Event) : bool :=
  match e with
  | UpdateLast _ => true
  | _ => false
  end.

(** The reply is a failure: the open rejects or the stream breaks. *)
Definition failed (r : Reply) : bool :=
  match r with
  | OpenFails _ => true
  | Opened _ (Breaks _) => true
  | Opened _ Completes => false
  end.

(** What one effect may do to the transcript: nothing, append one entry
    at the end, or change the text of the entry at the last index when
    that entry is a model message. *)
Inductive transcript_step (old : list ChatMessage)
  : list ChatMessage -> Prop :=
| step_same : transcript_step old old
| step_append m : transcript_step old (old ++ [m])
| step_stream init l txt :
    old = init ++ [l] -> role l = model ->
    transcript_step old (init ++ [set_text l txt]).

(** The operations of the controller. *)
Inductive Op :=
| DoMount (now : Z)
| DoType (s : jsstr)      (* onChange of the input field *)
| DoSend (t : Turn).

Definition op_events (o : Op) (st : State) : list Event :=
  match o with
  | DoMount now => mount now
  | DoType s => [ SetInput s ]
  | DoSend t => handleSend t st
  end.

(** The mount effect runs once, on the initial state. *)
Definition in_order (o : Op) (st : State) : Prop :=
  match o with
  | DoMount _ => st = initial
  | _ => True
  end.


(** *** Auxiliary notions and sample inputs *)

(** The state with another transcript. *)
Definition with_messages (st : State) (ms : list ChatMessage) : State :=
  {| messages := ms; input := input st;
     isTyping := isTyping st; chatRef := chatRef st |}.

(** The texts the updaters of a stream write, in the order they run: the
    fragments are gathered in [acc], and each updater writes what is
    gathered when React runs it. *)
Fixpoint written (acc : jsstr) (pending : nat) (frags : list jsstr)
    (sched : list bool) : list jsstr :=
  match frags with
  | [] => repeat acc pending
  | f :: rest =>
      if hd true sched
      then repeat (acc ++ f) (S pending) ++ written (acc ++ f) 0 rest (tl sched)
      else written (acc ++ f) (S pending) rest (tl sched)
  end.

(** A list of numbers that starts at [lo] or above and never goes down. *)
Fixpoint rising (lo : nat) (l : list nat) : Prop :=
  match l with
  | [] => True
  | x :: rest => lo <= x /\ rising x rest
  end.

(** The entries a turn leaves after the user message. *)
Definition reply_entries (t : Turn) : list ChatMessage :=
  match reply t with
  | OpenFails _ => [ apology t ]
  | Opened chunks fin =>
      set_text (placeholder t) (concat (fragments chunks))
      :: match fin with
         | Completes => []
         | Breaks _ => [ apology t ]
         end
  end.

(** The effects left to run keep the transcript invariant when started on
    the transcript [ms]. *)
Fixpoint orderly (ms : list ChatMessage) (evs : list Event) : Prop :=
  match evs with
  | [] => True
  | Append m :: rest => orderly (ms ++ [m]) rest
  | UpdateLast txt :: rest =>
      exists init l, ms = init ++ [l] /\ role l = model /\
                     orderly (init ++ [set_text l txt]) rest
  | SetMessages ms' :: rest =>
      (exists m, ms' = ms ++ [m]) /\ orderly ms' rest
  | _ :: rest => orderly ms rest
  end.

Definition tutor : Chat :=
  {| chat_model := TUTOR_MODEL; systemInstruction := TUTOR_INSTRUCTION |}.

Definition sample_error : thrown :=
  {| json_stringify := JsonText (lit "{}") |}.

(** The state after the mount effect, with a question typed in. *)
Definition sample_state : State :=
  {| messages := [ {| role := model; text := GREETING; timestamp := 0 |} ];
     input := lit "Hi"; isTyping := false; chatRef := Some tutor |}.

Definition turn_hello : Turn :=
  {| now_user := 1; now_placeholder := 2; now_error := 3;
     reply := Opened [ {| chunk_text := Some (lit "Hel") |};
                       {| chunk_text := None |};
                       {| chunk_text := Some (lit "lo") |} ] Completes;
     flushes := [ true; true ] |}.

(** The same turn with the two chunks back to back: React renders only
    after the second. *)
Definition turn_hello_batched : Turn :=
  {| now_user := 1; now_placeholder := 2; now_error := 3;
     reply := Opened [ {| chunk_text := Some (lit "Hel") |};
                       {| chunk_text := None |};
                       {| chunk_text := Some (lit "lo") |} ] Completes;
     flushes := [ false; true ] |}.

Definition turn_refused : Turn :=
  {| now_user := 1; now_placeholder := 2; now_error := 3;
     reply := OpenFails sample_error; flushes := [] |}.

Definition turn_broken : Turn :=
  {| now_user := 1; now_placeholder := 2; now_error := 3;
     reply := Opened [ {| chunk_text := Some (lit "Hel") |} ]
                     (Breaks sample_error);
     flushes := [] |}.

Definition blank_state : State :=
  {| messages := [ {| role := model; text := GREETING; timestamp := 0 |} ];
     input := lit "   "; isTyping := false; chatRef := Some tutor |}.

(** The sample state in the middle of the stream of [turn_hello]. *)
Definition state_mid_stream : State :=
  {| messages := [ {| role := model; text := GREETING; timestamp := 0 |};
                   {| role := user; text := lit "Hi"; timestamp := 1 |};
                   {| role := model; text := lit "Hel"; timestamp := 2 |} ];
     input := []; isTyping := true; chatRef := Some tutor |}.
End ChatSpec.

Module ImageSpec.
Import ImageGenerator.

(** The content parts of the first candidate. *)
Definition response_parts (r : Response) : list Part :=
  match candidates r with
  | Some (c :: _) =>
      match content c with
      | Some ct => match parts ct with Some ps => ps | None => [] end
      | None => []
      end
  | _ => []
  end.

(** A part that carries inline data. *)
Definition is_inline (p : Part) : bool :=
  match inlineData p with
  | Some _ => true
  | None => false
  end.

(** A part whose inline data has a non-empty payload. *)
Definition has_payload (p : Part) : bool :=
  match inlineData p with
  | Some b => truthy_opt (data b)
  | None => false
  end.

(** The gallery entry of a part with a payload. *)
Definition part_url (p : Part) : jsstr :=
  match inlineData p with
  | Some b =>
      lit "data:" ++ or_else (mimeType b) (lit "image/png")
      ++ lit ";base64," ++ match data b with Some d => d | None => [] end
  | None => []
  end.

(** The serialized error contains the authentication marker. *)
Definition looks_like_auth_failure (e : thrown) : bool :=
  match json_stringify e with
  | JsonText s => includes (lit "Requested entity was not found") s
  | JsonUndefined => false
  | JsonThrows => false
  end.

(** The operations of the controller. *)
Inductive Op :=
| DoMount
| DoConnectKey
| DoType (s : jsstr)
| DoChoose (r : ImageResolution)
| DoGenerate (o : Outcome).

(** One operation run to its end, the deferred effects included. *)
Definition step (w : option AIStudio) (st : State) (o : Op) : State :=
  match o with
  | DoMount => run (checkApiKey w) st
  | DoConnectKey => run (handleConnectKey w) st
  | DoType s => run [ SetPrompt s ] st
  | DoChoose r => run [ SetResolution r ] st
  | DoGenerate out =>
      let r := handleGenerate w out st in
      run (deferred r) (run (effects r) st)
  end.

Definition run_ops (w : option AIStudio) (ops : list Op) (st : State)
  : State :=
  fold_left (step w) ops st.

(** A generation whose request throws an error that matches the
    authentication heuristic. *)
Definition is_auth_failure (o : Op) : bool :=
  match o with
  | DoGenerate (Throws e) => looks_like_auth_failure e
  | _ => false
  end.


(** *** Auxiliary notions and sample inputs *)

(** Classes of effects. *)
Definition is_log (e : Event) : bool :=
  match e with ConsoleError _ _ => true | _ => false end.

Definition is_key_change (e : Event) : bool :=
  match e with SetHasApiKey _ => true | _ => false end.

Definition is_connect_call (e : Event) : bool :=
  match e with CallOpenSelectKey => true | _ => false end.

Definition png (payload : string) : Part :=
  {| inlineData := Some {| mimeType := Some (lit "image/png");
                           data := Some (lit payload) |};
     part_text := None |}.

Definition respond_with (ps : list Part) : Response :=
  {| candidates := Some [ {| content := Some {| parts := Some ps |} |} ] |}.

(** A caption, an image, an image without MIME type. *)
Definition sample_response : Response :=
  respond_with
    [ {| inlineData := None; part_text := Some (lit "Here you go") |};
      png "AAAA";
      {| inlineData := Some {| mimeType := None; data := Some (lit "BBBB") |};
         part_text := None |} ].

(** One inline-data part whose payload is the empty string. *)
Definition hollow_response : Response := respond_with [ png "" ].

Definition sample_state : State :=
  {| prompt := lit "a volcano"; resolution := RES_2K;
     generatedImages := [ lit "data:image/png;base64,old" ];
     isLoading := false; hasApiKey := true |}.

(** The serialization of [{ message: 'Requested entity was not found.' }];
    34 is the double quote. *)
Definition auth_error : thrown :=
  {| json_stringify :=
       JsonText (lit "{" ++ [34%N] ++ lit "message" ++ [34%N] ++ lit ":"
                 ++ [34%N] ++ lit "Requested entity was not found."
                 ++ [34%N] ++ lit "}") |}.

Definition studio : AIStudio :=
  {| hasSelectedApiKey := Some (Fulfilled true);
     openSelectKey := Some (Fulfilled tt) |}.
End ImageSpec.

Module AnalyzerSpec.
Import Analyzer.

(** The section the callback builds at a non-zero index. *)
Definition section_at (index : nat) (segment : jsstr) : Section :=
  {| key := index;
     title := trim (first_line segment);
     body := trim (rest_lines segment) |}.

(** Sample inputs. *)
Definition sample_result : jsstr :=
  lit "## Question" ++ [LF] ++ lit "What is x?" ++ [LF]
  ++ lit "## Answer" ++ [LF] ++ lit "x = 7".

Definition sample_file : File :=
  {| file_type := lit "image/png"; bytes := [104%N; 105%N] |}.

Definition sample_state : State :=
  {| file := Some sample_file; previewUrl := Some (lit "blob:preview");
     isAnalyzing := false; result := None |}.

Definition sample_reader : ReaderOutcome :=
  LoadEnd (Some (lit "data:image/png;base64,aGk=")).

Definition sample_success : Outcome :=
  {| reader := sample_reader; request := Returns (Some sample_result) |}.

(** A response whose text is the empty string. *)
Definition sample_empty_reply : Outcome :=
  {| reader := sample_reader; request := Returns (Some []) |}.

(** A request that throws. *)
Definition sample_failure : Outcome :=
  {| reader := sample_reader; request := RequestThrows conversion_error |}.

End AnalyzerSpec.

(** ** The rest of the components

    The handlers and render conditions the earlier sections leave out. *)

Module ChatView.
Import ChatBot.

(** [a === b] on strings. *)
Fixpoint str_eqb (a b : jsstr) : bool :=
  match a, b with
  | [], [] => true
  | x :: a', y :: b' => unit_eqb x y && str_eqb a' b'
  | _, _ => false
  end.

(** What [handleKeyDown] reads of the keyboard event. *)
Record KeyboardEvent := { key : jsstr; shiftKey : bool }.

Definition ENTER : jsstr := lit "Enter".

(** [handleKeyDown]: whether [e.preventDefault()] is called, and the
    effects of the [handleSend] it starts. *)
Definition handleKeyDown (ev : KeyboardEvent) (t : Turn) (st : State)
  : bool * list Event :=
  if str_eqb (key ev) ENTER && negb (shiftKey ev)
  then (true, handleSend t st)
  else (false, []).

(** [disabled] of the send button: [!input.trim() || isTyping]. *)
Definition send_disabled (st : State) : bool :=
  negb (truthy (trim (input st))) || isTyping st.

(** [disabled] of the input field. *)
Definition input_disabled (st : State) : bool := isTyping st.

End ChatView.

Module ImageView.
Import ImageGenerator.

(** [`${idx}`] for an array index: its decimal numeral. *)
Definition decimal (idx : nat) : jsstr :=
  lit (DecimalString.NilEmpty.string_of_uint (Nat.to_uint idx)).

(** The [download] attribute of the link of image [idx]. *)
Definition download_name (idx : nat) : jsstr :=
  lit "page-genius-" ++ decimal idx ++ lit ".png".

(** One tile of the gallery: the image source and the download name. *)
Record Tile := { src : jsstr; download : jsstr }.

(** The canvas under the prompt box. *)
Inductive Canvas :=
| Spinner
| Gallery (tiles : list Tile)
| Hint.

(** What the component returns. *)
Inductive Screen :=
| KeyGate
| Workspace (generate_disabled : bool) (canvas : Canvas).

(** [disabled] of the generate button: [isLoading || !prompt]. *)
Definition generate_disabled (st : State) : bool :=
  isLoading st || negb (truthy (prompt st)).

Definition canvas_of (st : State) : Canvas :=
  if isLoading st then Spinner
  else if Nat.ltb 0 (length (generatedImages st))
       then Gallery (mapi (fun idx img =>
                             {| src := img; download := download_name idx |})
                          (generatedImages st))
       else Hint.

(** The [return] of the component. *)
Definition render (st : State) : Screen :=
  if negb (hasApiKey st) then KeyGate
  else Workspace (generate_disabled st) (canvas_of st).

End ImageView.

Module AnalyzerView.
Import Analyzer.

(** The Analyze button is rendered under
    [previewUrl && (... !result && !isAnalyzing ...)]. *)
Definition analyze_offered (st : State) : bool :=
  truthy_opt (previewUrl st) && negb (truthy_opt (result st))
  && negb (isAnalyzing st).

(** The right column: any of the three blocks may be rendered. *)
Record Column := {
  ready_hint : bool;      (* !result && !isAnalyzing *)
  spinner : bool;         (* isAnalyzing *)
  sections : option (list Section)  (* result && ... *)
}.

Definition right_column (st : State) : Column :=
  {| ready_hint := negb (truthy_opt (result st)) && negb (isAnalyzing st);
     spinner := isAnalyzing st;
     sections := if truthy_opt (result st) then Some (displayed (result st))
                 else None |}.

(** [URL.createObjectURL] returns a [blob:] URL. *)
Definition object_url (id : jsstr) : jsstr := lit "blob:" ++ id.

End AnalyzerView.

(** ** Vocabulary of the further statements *)

Module MoreSpec.

(** [p] does not occur at a position of [cur ++ s] that lies in [cur]. *)
Definition clean_upto (p cur s : jsstr) : Prop :=
  forall a b, cur = a ++ b -> b <> [] -> startsWith p (b ++ s) = false.

(** One heading block as the system prompt asks for it. *)
Definition heading_block (tb : jsstr * jsstr) : jsstr :=
  Analyzer.DELIMITER ++ fst tb ++ [LF] ++ snd tb.

(** A response: text before the first heading, then the blocks. *)
Definition document (pre : jsstr) (blocks : list (jsstr * jsstr)) : jsstr :=
  pre ++ concat (map heading_block blocks).

(** A heading and its text are usable in a block: the heading is one
    line and the two hold no delimiter. *)
Definition plain_block (tb : jsstr * jsstr) : Prop :=
  ~ In LF (fst tb) /\
  includes Analyzer.DELIMITER (fst tb ++ [LF] ++ snd tb) = false.

(** The operations of the analyzer. *)
Inductive AnalyzerOp :=
| DoFileChange (f : Analyzer.File) (id : jsstr)
| DoAnalyze (o : Analyzer.Outcome).

Definition analyzer_step (st : Analyzer.State) (o : AnalyzerOp)
  : Analyzer.State :=
  match o with
  | DoFileChange f id =>
      Analyzer.run (Analyzer.handleFileChange f (AnalyzerView.object_url id)) st
  | DoAnalyze out => Analyzer.run (Analyzer.handleAnalyze out st) st
  end.

Definition analyzer_ops (ops : list AnalyzerOp) (st : Analyzer.State)
  : Analyzer.State :=
  fold_left analyzer_step ops st.

(** What holds of the analyzer between two operations. *)
Definition settled_state (st : Analyzer.State) : Prop :=
  Analyzer.isAnalyzing st = false /\
  Analyzer.result st <> Some [] /\
  truthy_opt (Analyzer.previewUrl st)
  = match Analyzer.file st with Some _ => true | None => false end.

(** The result an analysis stores. *)
Definition stored_result (o : Analyzer.Outcome) : option jsstr :=
  match Analyzer.blobToBase64 (Analyzer.reader o), Analyzer.request o with
  | Fulfilled _, Analyzer.Returns txt => if truthy_opt txt then txt else None
  | _, _ => Some Analyzer.ANALYSIS_ERROR
  end.

(** The analysis fails: the encoding rejects or the request throws. *)
Definition analysis_failed (o : Analyzer.Outcome) : bool :=
  match Analyzer.blobToBase64 (Analyzer.reader o), Analyzer.request o with
  | Fulfilled _, Analyzer.Returns _ => false
  | _, _ => true
  end.

(** The text up to the first [a]. *)
Fixpoint upto (a : code_unit) (s : jsstr) : jsstr :=
  match s with
  | [] => []
  | c :: s' => if unit_eqb c a then [] else c :: upto a s'
  end.

(** The text between the first [a] and the next one, when [a] occurs. *)
Fixpoint second_field (a : code_unit) (s : jsstr) : option jsstr :=
  match s with
  | [] => None
  | c :: s' => if unit_eqb c a then Some (upto a s') else second_field a s'
  end.

(** The requests of an analyzer trace. *)
Definition is_analysis_request (e : Analyzer.Event) : bool :=
  match e with Analyzer.GenerateContent _ _ => true | _ => false end.

(** Chat: one operation run to its end, and a sequence of them. *)
Definition chat_step (o : ChatSpec.Op) (st : ChatBot.State)
  : option ChatBot.State :=
  ChatBot.run (ChatSpec.op_events o st) st.

Fixpoint chat_ops (ops : list ChatSpec.Op) (st : ChatBot.State)
  : option ChatBot.State :=
  match ops with
  | [] => Some st
  | o :: rest =>
      match chat_step o st with
      | Some st' => chat_ops rest st'
      | None => None
      end
  end.

Definition is_mount (o : ChatSpec.Op) : bool :=
  match o with ChatSpec.DoMount _ => true | _ => false end.

Definition is_chat_log (e : ChatBot.Event) : bool :=
  match e with ChatBot.ConsoleError _ _ => true | _ => false end.

(** The handle and the greeting the mount effect sets. *)
Definition greeting (now : Z) : ChatBot.ChatMessage :=
  {| ChatBot.role := ChatBot.model; ChatBot.text := ChatBot.GREETING;
     ChatBot.timestamp := now |}.

Definition turn_silent : ChatBot.Turn :=
  {| ChatBot.now_user := 1; ChatBot.now_placeholder := 2;
     ChatBot.now_error := 3;
     ChatBot.reply :=
       ChatBot.Opened [ {| ChatBot.chunk_text := None |};
                        {| ChatBot.chunk_text := Some [] |} ]
                      ChatBot.Completes;
     ChatBot.flushes := [] |}.

(** Image generator: the requests of a trace. *)
Definition is_generation_request (e : ImageGenerator.Event) : bool :=
  match e with ImageGenerator.GenerateContent _ _ => true | _ => false end.

(** The outcome of a generation as the state keeps it. *)
Definition gallery_after (o : ImageGenerator.Outcome) : list jsstr :=
  match o with
  | ImageGenerator.Responds r =>
      map ImageSpec.part_url
          (filter ImageSpec.has_payload (ImageSpec.response_parts r))
  | ImageGenerator.Throws _ => []
  end.

Definition key_after (o : ImageGenerator.Outcome) (before : bool) : bool :=
  match o with
  | ImageGenerator.Responds _ => before
  | ImageGenerator.Throws e =>
      if ImageSpec.looks_like_auth_failure e then false else before
  end.

(** The host lets the user pick a key and the pick succeeds. *)
Definition can_reconnect (w : option ImageGenerator.AIStudio) : bool :=
  match w with
  | Some a =>
      match ImageGenerator.openSelectKey a with
      | Some (Fulfilled _) => true
      | _ => false
      end
  | None => false
  end.

(** The tiles of a gallery. *)
Definition tiles_of (imgs : list jsstr) : list ImageView.Tile :=
  mapi (fun idx img => {| ImageView.src := img;
                          ImageView.download := ImageView.download_name idx |})
       imgs.

(** What the user may do while a request is out: the prompt box and the
    resolution buttons are never disabled. *)
Inductive Edit :=
| EditPrompt (s : jsstr)
| EditResolution (r : ImageGenerator.ImageResolution).

Definition edit_event (e : Edit) : ImageGenerator.Event :=
  match e with
  | EditPrompt s => ImageGenerator.SetPrompt s
  | EditResolution r => ImageGenerator.SetResolution r
  end.

(** The effects of a run up to and including its request, where the
    handler waits, and the effects after it. *)
Fixpoint until_request (evs : list ImageGenerator.Event)
  : list ImageGenerator.Event :=
  match evs with
  | [] => []
  | e :: rest =>
      if is_generation_request e then [ e ] else e :: until_request rest
  end.

Fixpoint past_request (evs : list ImageGenerator.Event)
  : list ImageGenerator.Event :=
  match evs with
  | [] => []
  | e :: rest => if is_generation_request e then rest else past_request rest
  end.

(** The state when a generation settles, the user having made [edits]
    while its request was out. *)
Definition settle_with_edits (w : option ImageGenerator.AIStudio)
    (o : ImageGenerator.Outcome) (st : ImageGenerator.State)
    (edits : list Edit) : ImageGenerator.State :=
  let evs := ImageGenerator.effects (ImageGenerator.handleGenerate w o st) in
  ImageGenerator.run (past_request evs)
    (ImageGenerator.run (map edit_event edits)
       (ImageGenerator.run (until_request evs) st)).

(** Sample inputs. *)
Definition blank_prompt_state : ImageGenerator.State :=
  {| ImageGenerator.prompt := lit "   ";
     ImageGenerator.resolution := ImageGenerator.RES_1K;
     ImageGenerator.generatedImages := [];
     ImageGenerator.isLoading := false;
     ImageGenerator.hasApiKey := true |}.

Definition sample_blocks : list (jsstr * jsstr) :=
  [ (lit "1. Extracted Question", [LF] ++ lit "What is x + 7 = 10?" ++ [LF; LF]);
    (lit "2. Detailed Solution ", lit "x = 3") ].

End MoreSpec.

(** ** Facts about the string primitives *)

Module JSFacts.

Lemma startsWith_skipn p : forall s,
  startsWith p s = true -> s = p ++ skipn (length p) s.
Proof.
  induction p as [|a p IH]; intros [|b s] H; simpl in *;
    try reflexivity; try discriminate.
  apply andb_true_iff in H as [Hab Hp].
  apply N.eqb_eq in Hab. subst b. f_equal. apply IH, Hp.
Qed.

Lemma skipn_pred (sep : jsstr) c (s : jsstr) :
  sep <> [] -> skipn (length sep) (c :: s) = skipn (length sep - 1) s.
Proof.
  destruct sep as [|a sep]; [congruence|]. intros _. simpl.
  now rewrite Nat.sub_0_r.
Qed.

Lemma split_from_not_nil sep cur s : split_from sep cur s <> [].
Proof.
  funelim (split_from sep cur s); try discriminate. assumption.
Qed.

Lemma join_cons sep x rest :
  rest <> [] -> join sep (x :: rest) = x ++ sep ++ join sep rest.
Proof. destruct rest; [congruence | reflexivity]. Qed.

(** Joining the pieces of a split with the separator gives the text back. *)
Lemma join_split_from sep cur s :
  sep <> [] -> join sep (split_from sep cur s) = cur ++ s.
Proof.
  intros Hne. funelim (split_from sep cur s).
  - simpl. now rewrite app_nil_r.
  - rewrite join_cons by apply split_from_not_nil.
    rewrite H by assumption. simpl.
    rewrite <- skipn_pred with (c := c) by assumption.
    now rewrite <- startsWith_skipn.
  - rewrite H by assumption. now rewrite <- app_assoc.
Qed.

(** A separator that cannot overlap a shifted copy of itself splits a text
    into one more piece than it has occurrences. *)
Lemma split_from_length sep cur s :
  sep <> [] ->
  (forall t, startsWith sep t = true ->
     occurrences sep t = S (occurrences sep (skipn (length sep) t))) ->
  length (split_from sep cur s) = S (occurrences sep s).
Proof.
  intros Hne Hov. funelim (split_from sep cur s).
  - reflexivity.
  - simpl length. rewrite H by assumption.
    rewrite (Hov _ Heq). now rewrite skipn_pred.
  - rewrite H by assumption. simpl occurrences. now rewrite Heq.
Qed.

Lemma split_from_hit sep cur c s :
  startsWith sep (c :: s) = true ->
  split_from sep cur (c :: s)
  = cur :: split_from sep [] (skipn (length sep - 1) s).
Proof. intros H. simp split_from. rewrite H. reflexivity. Qed.

Lemma split_from_miss sep cur c s :
  startsWith sep (c :: s) = false ->
  split_from sep cur (c :: s) = split_from sep (cur ++ [c]) s.
Proof. intros H. simp split_from. rewrite H. reflexivity. Qed.

Lemma startsWith_unit a c s : startsWith [a] (c :: s) = N.eqb c a.
Proof. simpl. unfold unit_eqb. now rewrite andb_true_r, N.eqb_sym. Qed.

(** Splitting on the line feed: the first piece is the first line, and the
    other pieces joined again are the text after the first line feed. *)
Lemma split_from_LF cur s :
  hd [] (split_from [LF] cur s) = cur ++ first_line s /\
  join [LF] (tl (split_from [LF] cur s)) = rest_lines s.
Proof.
  revert cur. induction s as [|c s IH]; intros cur.
  - simp split_from. simpl. now rewrite app_nil_r.
  - cbn [first_line rest_lines]. unfold unit_eqb.
    destruct (N.eqb c LF) eqn:E.
    + rewrite split_from_hit by now rewrite startsWith_unit.
      cbn [hd tl length Nat.sub skipn]. rewrite app_nil_r. split; [reflexivity|].
      now rewrite join_split_from by discriminate.
    + rewrite split_from_miss by now rewrite startsWith_unit.
      destruct (IH (cur ++ [c])) as [Hh Ht]. rewrite Hh, Ht.
      now rewrite <- app_assoc.
Qed.

End JSFacts.

(** ** The analyzer *)

Module AnalyzerFacts.
Import Analyzer AnalyzerSpec JSFacts.

Lemma delimiter_no_overlap t :
  startsWith DELIMITER t = true ->
  occurrences DELIMITER t
  = S (occurrences DELIMITER (skipn (length DELIMITER) t)).
Proof.
  intros H. rewrite (startsWith_skipn _ _ H) at 1.
  generalize (skipn (length DELIMITER) t). intros u. reflexivity.
Qed.

Lemma split_delimiter_length text :
  length (split DELIMITER text) = S (occurrences DELIMITER text).
Proof.
  apply split_from_length; [discriminate | apply delimiter_no_overlap].
Qed.

Lemma render_section_succ index segment :
  render_section (S index) segment = Some (section_at (S index) segment).
Proof.
  unfold render_section, section_at, split. cbn [Nat.eqb].
  destruct (split_from_LF [] segment) as [Hh Ht].
  now rewrite Hh, Ht.
Qed.

Lemma shown_from_succ segments : forall index,
  shown (mapi_from (S index) render_section segments)
  = mapi_from (S index) section_at segments.
Proof.
  induction segments as [|seg segments IH]; intros index; [reflexivity|].
  cbn [mapi_from]. rewrite render_section_succ. cbn [shown].
  now rewrite IH.
Qed.

Lemma map_mapi_from {A B C} (g : B -> C) (f : nat -> A -> B) (h : A -> C) xs :
  (forall i x, g (f i x) = h x) ->
  forall start, map g (mapi_from start f xs) = map h xs.
Proof.
  intros Hg. induction xs as [|x xs IH]; intros start; [reflexivity|].
  cbn [mapi_from map]. now rewrite Hg, IH.
Qed.

Lemma shown_render_sections text :
  shown (render_sections text)
  = mapi_from 1 section_at (tl (split DELIMITER text)).
Proof.
  unfold render_sections, mapi.
  destruct (split DELIMITER text) as [|pre segments]; [reflexivity|].
  cbn [mapi_from tl]. unfold render_section at 1. cbn [Nat.eqb shown].
  apply shown_from_succ.
Qed.

Lemma displayed_sections text :
  displayed (Some text)
  = mapi_from 1 section_at (tl (split DELIMITER text)).
Proof.
  unfold displayed. destruct text as [|c text]; [reflexivity|].
  cbn [truthy]. apply shown_render_sections.
Qed.

Lemma length_mapi_from {A B} (f : nat -> A -> B) xs :
  forall start, length (mapi_from start f xs) = length xs.
Proof.
  induction xs as [|x xs IH]; intros start; [reflexivity|].
  cbn [mapi_from length]. now rewrite IH.
Qed.

Lemma keys_mapi_from segments : forall start,
  map key (mapi_from start section_at segments)
  = seq start (length segments).
Proof.
  induction segments as [|x xs IH]; intros start; [reflexivity|].
  simpl. now rewrite IH.
Qed.

(** C1 (as amended): the stored text is split on ["## "], the first
    piece is dropped, and a text with N occurrences of the delimiter
    shows N sections; the title of each is the trimmed first line of its
    piece and its body the trimmed text after that line. *)
Theorem C1_sections_of_result (text : jsstr) :
  length (split DELIMITER text) = S (occurrences DELIMITER text) /\
  length (displayed (Some text)) = occurrences DELIMITER text /\
  map title (displayed (Some text))
  = map (fun segment => trim (first_line segment))
        (tl (split DELIMITER text)) /\
  map body (displayed (Some text))
  = map (fun segment => trim (rest_lines segment))
        (tl (split DELIMITER text)) /\
  map key (displayed (Some text)) = seq 1 (occurrences DELIMITER text).
Proof.
  pose proof (split_delimiter_length text) as Hlen.
  rewrite displayed_sections.
  repeat split.
  - exact Hlen.
  - rewrite length_mapi_from.
    destruct (split DELIMITER text); simpl in *; lia.
  - now apply map_mapi_from.
  - now apply map_mapi_from.
  - assert (Hn : length (tl (split DELIMITER text))
                 = occurrences DELIMITER text)
      by (destruct (split DELIMITER text); simpl in *; lia).
    rewrite <- Hn. apply keys_mapi_from.
Qed.

(** C1 as stated fails: a text with two occurrences of the delimiter
    shows two sections, not one. *)
Lemma C1_counterexample :
  occurrences DELIMITER sample_result = 2 /\
  length (displayed (Some sample_result)) <> 2 - 1.
Proof. split; [vm_compute; reflexivity | vm_compute; discriminate]. Qed.

(** C7 (as amended): after [handleAnalyze] on a selected file the
    analyzing flag is off; a response with a non-empty text is stored as
    it is, a response without text leaves the result cleared, and a
    thrown error is logged and replaced by the fixed error string. *)
Theorem C7_analyze_result (o : Outcome) (st : State) (f : File) :
  file st = Some f ->
  isAnalyzing (run (handleAnalyze o st) st) = false /\
  match blobToBase64 (reader o), request o with
  | Fulfilled _, Returns txt =>
      result (run (handleAnalyze o st) st)
      = (if truthy_opt txt then txt else None)
  | Rejected e, _ | Fulfilled _, RequestThrows e =>
      result (run (handleAnalyze o st) st) = Some ANALYSIS_ERROR /\
      In (ConsoleError ANALYSIS_FAILED e) (handleAnalyze o st)
  end.
Proof.
  intros Hf. unfold handleAnalyze. rewrite Hf.
  destruct (blobToBase64 (reader o)) as [d | e];
    [destruct (request o) as [e | txt]|];
    cbn -[ANALYSIS_ERROR ANALYSIS_FAILED truthy_opt].
  - auto 10.
  - destruct (truthy_opt txt); cbn; auto.
  - auto 10.
Qed.

Lemma C7_analyze_result_witness :
  file sample_state = Some sample_file /\
  isAnalyzing (run (handleAnalyze sample_success sample_state) sample_state)
  = false /\
  result (run (handleAnalyze sample_success sample_state) sample_state)
  = Some sample_result.
Proof.
  split; [reflexivity|].
  exact (C7_analyze_result sample_success sample_state eq_refl).
Defined.

(** C7 as stated fails: a successful response whose text is empty is not
    stored; the result stays null. *)
Lemma C7_counterexample :
  result (run (handleAnalyze sample_empty_reply sample_state) sample_state)
  <> Some [].
Proof. vm_compute. discriminate. Qed.

End AnalyzerFacts.

(** ** The chat controller *)

Module ChatFacts.
Import ChatBot ChatSpec.

Lemma update_last_snoc txt m : forall init,
  update_last txt (init ++ [m]) = Some (init ++ [set_text m txt]).
Proof.
  induction init as [|x init IH]; [reflexivity|].
  cbn [app update_last]. rewrite IH.
  destruct (init ++ [m]) eqn:E; [now destruct init | reflexivity].
Qed.

Lemma final_snoc {A} (x : A) : forall l, final (l ++ [x]) = Some x.
Proof.
  induction l as [|y l IH]; [reflexivity|].
  cbn [app final]. rewrite IH.
  destruct (l ++ [x]) eqn:E; [now destruct l | reflexivity].
Qed.

Lemma run_app evs1 : forall evs2 st,
  run (evs1 ++ evs2) st
  = match run evs1 st with
    | Some st' => run evs2 st'
    | None => None
    end.
Proof.
  induction evs1 as [|e evs1 IH]; intros evs2 st; [reflexivity|].
  cbn [app run]. destruct (apply e st); [apply IH | reflexivity].
Qed.

Lemma snapshots_app evs1 : forall evs2 st,
  snapshots (evs1 ++ evs2) st
  = snapshots evs1 st
    ++ match run evs1 st with
       | Some st' => snapshots evs2 st'
       | None => []
       end.
Proof.
  induction evs1 as [|e evs1 IH]; intros evs2 st; [reflexivity|].
  cbn [app run snapshots]. destruct (apply e st) as [st'|]; [|reflexivity].
  rewrite IH. now destruct e.
Qed.

Lemma set_text_set_text m a b : set_text (set_text m a) b = set_text m b.
Proof. reflexivity. Qed.

(** The loop issues nothing but updates of the last entry, with the
    texts of [written]. *)
Lemma stream_loop_written chunks : forall acc pending sched,
  stream_loop acc pending chunks sched
  = map UpdateLast (written acc pending (fragments chunks) sched).
Proof.
  induction chunks as [|c chunks IH]; intros acc pending sched.
  - cbn. now rewrite map_repeat.
  - cbn [stream_loop fragments].
    destruct (chunk_text c) as [txt|]; [|apply IH].
    destruct (truthy txt); [|apply IH].
    cbn [written]. destruct (hd true sched); [|apply IH].
    now rewrite map_app, map_repeat, IH.
Qed.

Lemma final_cons {A} (x : A) l :
  final (x :: l) = match final l with Some y => Some y | None => Some x end.
Proof.
  revert x. induction l as [|y l IH]; intros x; [reflexivity|].
  change (final (x :: y :: l)) with (final (y :: l)).
  rewrite (IH y). now destruct (final l).
Qed.

Lemma final_app {A} (l1 l2 : list A) :
  final (l1 ++ l2)
  = match final l2 with Some y => Some y | None => final l1 end.
Proof.
  induction l1 as [|x l1 IH].
  - cbn [app]. now destruct (final l2).
  - cbn [app]. rewrite !final_cons, IH. now destruct (final l2).
Qed.

Lemma final_repeat {A} (x : A) n : final (repeat x (S n)) = Some x.
Proof.
  induction n as [|n IH]; [reflexivity|].
  change (repeat x (S (S n))) with (x :: repeat x (S n)).
  now rewrite final_cons, IH.
Qed.

(** Updates of the last entry keep the transcript but for its text, which
    ends as the last text written. *)
Lemma run_updates texts : forall st init m,
  messages st = init ++ [m] ->
  run (map UpdateLast texts) st
  = Some (with_messages st
            (init ++ [ match final texts with
                       | Some x => set_text m x
                       | None => m
                       end ])).
Proof.
  induction texts as [|x texts IH]; intros st init m Hm.
  - cbn. rewrite <- Hm. now destruct st.
  - cbn [map run apply]. rewrite Hm, update_last_snoc.
    erewrite IH by reflexivity. rewrite final_cons.
    unfold with_messages; cbn. do 3 f_equal.
    now destruct (final texts).
Qed.

Lemma snapshots_updates texts : forall st init m,
  messages st = init ++ [m] ->
  map last_length (snapshots (map UpdateLast texts) st)
  = map (@length _) texts.
Proof.
  induction texts as [|x texts IH]; intros st init m Hm; [reflexivity|].
  cbn [map snapshots apply]. rewrite Hm, update_last_snoc.
  cbn [map]. f_equal.
  - unfold last_length, last_text. cbn. now rewrite final_snoc.
  - now apply (IH _ init (set_text m x)).
Qed.

(** Whatever the schedule, the last text written is all the fragments. *)
Lemma final_written frags : forall acc pending sched,
  final (written acc pending frags sched)
  = match pending, frags with
    | 0, [] => None
    | _, _ => Some (acc ++ concat frags)
    end.
Proof.
  induction frags as [|f frags IH]; intros acc pending sched.
  - cbn [written concat]. rewrite app_nil_r.
    destruct pending; [reflexivity | apply final_repeat].
  - cbn [written concat]. destruct (hd true sched).
    + rewrite final_app, IH, final_repeat.
      destruct frags, pending; cbn [concat];
        rewrite ?app_nil_r, <- ?app_assoc; reflexivity.
    + rewrite IH, <- app_assoc. now destruct pending.
Qed.

Lemma length_written frags : forall acc pending sched,
  length (written acc pending frags sched) = pending + length frags.
Proof.
  induction frags as [|f frags IH]; intros acc pending sched.
  - cbn. rewrite repeat_length. lia.
  - cbn [written length]. destruct (hd true sched).
    + rewrite length_app, repeat_length, IH. lia.
    + rewrite IH. lia.
Qed.

Lemma rising_weaken lo lo' l : lo <= lo' -> rising lo' l -> rising lo l.
Proof. destruct l; cbn; [auto|]. intros H [H1 H2]. split; [lia | exact H2]. Qed.

Lemma rising_repeat_app lo x n l :
  lo <= x -> rising x l -> rising lo (repeat x n ++ l).
Proof.
  intros Hlo Hl. revert lo Hlo. induction n as [|n IH]; intros lo Hlo.
  - now apply rising_weaken with (lo' := x).
  - cbn. split; [exact Hlo|]. now apply IH.
Qed.

(** Whatever the schedule, the texts written never get shorter. *)
Lemma rising_written frags : forall acc pending sched,
  rising (length acc) (map (@length _) (written acc pending frags sched)).
Proof.
  induction frags as [|f frags IH]; intros acc pending sched.
  - cbn [written]. rewrite map_repeat.
    rewrite <- (app_nil_r (repeat _ _)).
    apply rising_repeat_app; [lia | exact I].
  - cbn [written]. destruct (hd true sched).
    + rewrite map_app, map_repeat. apply rising_repeat_app.
      * rewrite length_app. lia.
      * apply IH.
    + apply rising_weaken with (lo' := length (acc ++ f));
        [rewrite length_app; lia | apply IH].
Qed.

Lemma rising_nondecreasing l : forall lo,
  rising lo l -> Forall (fun n => lo <= n) l /\ nondecreasing l.
Proof.
  induction l as [|x l IH]; intros lo H.
  - split; [constructor|]. intros [|i] j a b _ Hi; discriminate.
  - destruct H as [Hlo Hx]. destruct (IH x Hx) as [Hall Hmono]. split.
    + constructor; [exact Hlo|].
      eapply Forall_impl; [|exact Hall]. cbn. intros n. lia.
    + intros [|i] [|j] a b Hij Hi Hj; cbn in Hi, Hj.
      * injection Hi as <-; injection Hj as <-. lia.
      * injection Hi as <-. apply nth_error_In in Hj.
        rewrite Forall_forall in Hall. now apply Hall.
      * lia.
      * apply (Hmono i j); [lia | assumption | assumption].
Qed.

Lemma handleSend_passes t st c :
  truthy (trim (input st)) = true -> chatRef st = Some c ->
  handleSend t st
  = [ Append (userMsg t st); SetInput []; SetIsTyping true;
      SendMessageStream (input st) ]
    ++ match reply t with
       | OpenFails e => on_error t e
       | Opened chunks fin =>
           Append (placeholder t)
           :: map UpdateLast (written [] 0 (fragments chunks) (flushes t))
           ++ match fin with
              | Completes => []
              | Breaks e => on_error t e
              end
       end
    ++ [ SetIsTyping false ].
Proof.
  intros Hin Hc. unfold handleSend. rewrite Hin, Hc. cbn [negb].
  destruct (reply t); [reflexivity|]. now rewrite stream_loop_written.
Qed.

(** [handleSend] always runs to its end, and leaves the user message and
    the entries of the reply at the end of the transcript. *)
Lemma run_handleSend t st c :
  truthy (trim (input st)) = true -> chatRef st = Some c ->
  run (handleSend t st) st
  = Some {| messages := messages st ++ userMsg t st :: reply_entries t;
            input := []; isTyping := false; chatRef := chatRef st |}.
Proof.
  intros Hin Hc. rewrite (handleSend_passes t st Hin Hc).
  unfold reply_entries.
  destruct (reply t) as [e | chunks fin];
    [cbn; now rewrite <- app_assoc|].
  cbn [app run apply messages input isTyping chatRef].
  rewrite !run_app.
  erewrite run_updates by (cbn [messages]; reflexivity).
  rewrite final_written.
  destruct (fragments chunks) as [|f fs]; destruct fin as [|e];
    unfold with_messages; cbn; rewrite <- !app_assoc; reflexivity.
Qed.

Lemma snapshots_handleSend t st c :
  truthy (trim (input st)) = true -> chatRef st = Some c ->
  map last_length (snapshots (handleSend t st) st)
  = match reply t with
    | OpenFails _ => []
    | Opened chunks _ =>
        map (@length _) (written [] 0 (fragments chunks) (flushes t))
    end.
Proof.
  intros Hin Hc. rewrite (handleSend_passes t st Hin Hc).
  destruct (reply t) as [e | chunks fin]; [reflexivity|].
  cbn [app snapshots apply messages input isTyping chatRef].
  rewrite !snapshots_app, !map_app, !run_app.
  rewrite snapshots_updates
    with (init := messages st ++ [userMsg t st]) (m := placeholder t)
    by reflexivity.
  erewrite run_updates by (cbn [messages]; reflexivity).
  destruct fin; cbn; now rewrite !app_nil_r.
Qed.

Lemma orderly_quiet ms evs :
  forallb (fun e => match e with
                    | UpdateLast _ | SetMessages _ => false
                    | _ => true
                    end) evs = true ->
  orderly ms evs.
Proof.
  revert ms. induction evs as [|e evs IH]; intros ms H; [exact I|].
  cbn [forallb] in H. apply andb_true_iff in H as [He H].
  destruct e; try discriminate; cbn [orderly]; now apply IH.
Qed.

Lemma orderly_updates texts rest : forall init l,
  role l = model ->
  (forall l', role l' = model -> orderly (init ++ [l']) rest) ->
  orderly (init ++ [l]) (map UpdateLast texts ++ rest).
Proof.
  induction texts as [|x texts IH]; intros init l Hl Hrest.
  - now apply Hrest.
  - cbn [map app orderly]. exists init, l. repeat split; [assumption|].
    now apply IH.
Qed.

Lemma orderly_handleSend t st : orderly (messages st) (handleSend t st).
Proof.
  unfold handleSend.
  destruct (negb (truthy (trim (input st)))); [exact I|].
  destruct (chatRef st); [|exact I].
  cbn [app orderly].
  destruct (reply t) as [e | chunks fin]; [exact I|].
  cbn [app orderly]. rewrite stream_loop_written.
  rewrite <- (app_assoc (map UpdateLast _)).
  apply orderly_updates; [reflexivity|].
  intros l' _. apply orderly_quiet. now destruct fin.
Qed.

Lemma orderly_op o st : in_order o st -> orderly (messages st) (op_events o st).
Proof.
  destruct o as [now | s | t]; cbn [op_events in_order].
  - intros ->. cbn. split; [|exact I]. now eexists.
  - intros _. exact I.
  - intros _. apply orderly_handleSend.
Qed.

Lemma orderly_head e rest st :
  orderly (messages st) (e :: rest) ->
  exists st', apply e st = Some st' /\
              transcript_step (messages st) (messages st') /\
              orderly (messages st') rest.
Proof.
  destruct e; cbn [orderly apply]; intros H;
    try (eexists; repeat split; [constructor | exact H]).
  - destruct H as [[m ->] H]. eexists. repeat split; [|exact H].
    apply step_append.
  - destruct H as (init & l & Hms & Hl & H).
    rewrite Hms, update_last_snoc. eexists. repeat split; [|exact H].
    cbn [messages]. now apply step_stream.
Qed.

Lemma orderly_steps evs1 : forall evs st e evs2 st1,
  orderly (messages st) evs ->
  evs = evs1 ++ e :: evs2 ->
  run evs1 st = Some st1 ->
  exists st2, apply e st1 = Some st2 /\
              transcript_step (messages st1) (messages st2).
Proof.
  induction evs1 as [|e0 evs1 IH]; intros evs st e evs2 st1 Hord -> Hrun.
  - injection Hrun as <-.
    destruct (orderly_head _ _ _ Hord) as (st2 & Ha & Hs & _). eauto.
  - cbn [app] in Hord.
    destruct (orderly_head _ _ _ Hord) as (st0 & Ha & _ & Hord').
    cbn [run] in Hrun. rewrite Ha in Hrun.
    exact (IH _ st0 e evs2 st1 Hord' eq_refl Hrun).
Qed.

(** C2: the fragments [Hel], [lo] leave [Hello] in the last entry when
    the stream completes, and in every turn the text of the last entry
    never gets shorter from one fragment update to the next, whenever
    React runs the queued updaters: an updater that runs at once writes
    [Hel], one that waits for the next chunk writes [Hello]. *)
Theorem C2_streamed_turn (t : Turn) (st : State) :
  nondecreasing (map last_length (snapshots (handleSend t st) st)) /\
  (forall c chunks,
     truthy (trim (input st)) = true ->
     chatRef st = Some c ->
     reply t = Opened chunks Completes ->
     fragments chunks = [ lit "Hel"; lit "lo" ] ->
     exists st', run (handleSend t st) st = Some st' /\
                 last_text st' = Some (lit "Hello") /\
                 map last_length (snapshots (handleSend t st) st)
                 = if hd true (flushes t) then [3; 5] else [5; 5]).
Proof.
  split.
  - destruct (truthy (trim (input st))) eqn:Hin;
      [|unfold handleSend; rewrite Hin; intros [|i] j a b _ Hi; discriminate].
    destruct (chatRef st) as [c|] eqn:Hc;
      [|unfold handleSend; rewrite Hin, Hc; intros [|i] j a b _ Hi;
        discriminate].
    rewrite (snapshots_handleSend t st Hin Hc).
    destruct (reply t) as [e | chunks fin];
      [intros [|i] j a b _ Hi; discriminate|].
    apply (rising_nondecreasing _ (length (@nil code_unit))).
    apply rising_written.
  - intros c chunks Hin Hc Hr Hf.
    rewrite (run_handleSend t st Hin Hc), (snapshots_handleSend t st Hin Hc).
    unfold reply_entries. rewrite Hr, Hf. eexists. split; [reflexivity|].
    split.
    + unfold last_text. cbn [messages].
      change (messages st ++ [userMsg t st; ?x])
        with (messages st ++ [userMsg t st] ++ [x]).
      now rewrite app_assoc, final_snoc.
    + cbn [written]. destruct (hd true (flushes t));
        destruct (hd true (tl (flushes t))); reflexivity.
Qed.

Lemma C2_streamed_turn_witness :
  truthy (trim (input sample_state)) = true /\
  chatRef sample_state = Some tutor /\
  fragments [ {| chunk_text := Some (lit "Hel") |};
              {| chunk_text := None |};
              {| chunk_text := Some (lit "lo") |} ]
  = [ lit "Hel"; lit "lo" ] /\
  exists st',
    run (handleSend turn_hello_batched sample_state) sample_state = Some st' /\
    last_text st' = Some (lit "Hello") /\
    map last_length
        (snapshots (handleSend turn_hello_batched sample_state) sample_state)
    = [5; 5].
Proof.
  repeat split; try reflexivity.
  apply (proj2 (C2_streamed_turn turn_hello_batched sample_state) tutor
               [ {| chunk_text := Some (lit "Hel") |};
                 {| chunk_text := None |};
                 {| chunk_text := Some (lit "lo") |} ]);
    reflexivity.
Defined.

(** C3 (as amended): with a non-blank input the first effects are, in
    this order, the user message appended, the input cleared, the typing
    flag set and the request to the collaborator; the empty placeholder is
    appended right after the stream has been opened and before any update
    of the last entry, and not at all when opening fails. *)
Theorem C3_request_then_placeholder (t : Turn) (st : State) (c : Chat) :
  truthy (trim (input st)) = true ->
  chatRef st = Some c ->
  firstn 4 (handleSend t st)
  = [ Append {| role := user; text := input st; timestamp := now_user t |};
      SetInput []; SetIsTyping true; SendMessageStream (input st) ] /\
  index_where is_request (handleSend t st) = Some 3 /\
  index_where is_placeholder (handleSend t st)
  = match reply t with
    | Opened _ _ => Some 4
    | OpenFails _ => None
    end /\
  match reply t with
  | Opened chunks _ =>
      nth_error (handleSend t st) 4
      = Some (Append {| role := model; text := [];
                        timestamp := now_placeholder t |}) /\
      index_where is_update (handleSend t st)
      = match fragments chunks with
        | [] => None
        | _ :: _ => Some 5
        end
  | OpenFails _ =>
      index_where is_update (handleSend t st) = None
  end.
Proof.
  intros Hin Hc. rewrite (handleSend_passes t st Hin Hc).
  split; [reflexivity|]. split; [reflexivity|].
  destruct (reply t) as [e | chunks fin]; [repeat split|].
  split; [reflexivity|]. split; [reflexivity|].
  cbn [app index_where is_update].
  pose proof (length_written (fragments chunks) [] 0 (flushes t)) as Hlen.
  destruct (written [] 0 (fragments chunks) (flushes t)) as [|x texts].
  - destruct (fragments chunks); [|discriminate]. now destruct fin.
  - destruct (fragments chunks); [discriminate | reflexivity].
Qed.

Lemma C3_request_then_placeholder_witness :
  truthy (trim (input sample_state)) = true /\
  chatRef sample_state = Some tutor /\
  firstn 5 (handleSend turn_hello sample_state)
  = [ Append {| role := user; text := lit "Hi"; timestamp := 1 |};
      SetInput []; SetIsTyping true; SendMessageStream (lit "Hi");
      Append {| role := model; text := []; timestamp := 2 |} ] /\
  index_where is_request (handleSend turn_hello sample_state) = Some 3 /\
  index_where is_placeholder (handleSend turn_hello sample_state) = Some 4 /\
  index_where is_update (handleSend turn_hello sample_state) = Some 5.
Proof.
  split; [reflexivity|]. split; [reflexivity|]. split; [reflexivity|].
  pose proof (C3_request_then_placeholder turn_hello sample_state
                (c := tutor) eq_refl eq_refl) as (_ & Hreq & Hph & _ & Hup).
  split; [exact Hreq|]. split; [exact Hph | exact Hup].
Defined.

(** C3 as stated fails: in a turn that streams, the placeholder is not
    appended before the request; the request comes first. *)
Lemma C3_counterexample :
  ~ (exists i j,
       index_where is_placeholder (handleSend turn_hello sample_state)
       = Some i /\
       index_where is_request (handleSend turn_hello sample_state)
       = Some j /\
       i < j).
Proof.
  intros (i & j & Hi & Hj & Hlt).
  vm_compute in Hi, Hj.
  injection Hi as <-. injection Hj as <-. lia.
Qed.

(** C5 (as amended): when the request throws, the typing flag is
    cleared and the fixed apology is appended as a new last entry; the
    placeholder stays before it, with the text streamed so far, when the
    stream had been opened, and there is no placeholder when opening
    failed. *)
Theorem C5_failed_turn (t : Turn) (st : State) (c : Chat) :
  truthy (trim (input st)) = true ->
  chatRef st = Some c ->
  failed (reply t) = true ->
  exists st',
    run (handleSend t st) st = Some st' /\
    isTyping st' = false /\
    final (messages st') = Some (apology t) /\
    messages st'
    = messages st
      ++ [ userMsg t st ]
      ++ match reply t with
         | OpenFails _ => []
         | Opened chunks _ =>
             [ {| role := model; text := concat (fragments chunks);
                  timestamp := now_placeholder t |} ]
         end
      ++ [ apology t ].
Proof.
  intros Hin Hc Hf. rewrite (run_handleSend t st Hin Hc).
  eexists. split; [reflexivity|]. split; [reflexivity|].
  cbn [messages]. unfold reply_entries.
  destruct (reply t) as [e | chunks [|e]]; try discriminate; split;
    try reflexivity.
  - change (messages st ++ [userMsg t st; apology t])
      with (messages st ++ [userMsg t st] ++ [apology t]).
    now rewrite app_assoc, final_snoc.
  - change (messages st ++ [userMsg t st; ?p; apology t])
      with (messages st ++ [userMsg t st; p] ++ [apology t]).
    now rewrite app_assoc, final_snoc.
Qed.

Lemma C5_failed_turn_witness :
  truthy (trim (input sample_state)) = true /\
  chatRef sample_state = Some tutor /\
  failed (reply turn_broken) = true /\
  exists st',
    run (handleSend turn_broken sample_state) sample_state = Some st' /\
    isTyping st' = false /\
    final (messages st') = Some (apology turn_broken) /\
    messages st'
    = messages sample_state
      ++ [ userMsg turn_broken sample_state ]
      ++ [ {| role := model; text := lit "Hel"; timestamp := 2 |} ]
      ++ [ apology turn_broken ].
Proof.
  split; [reflexivity|]. split; [reflexivity|]. split; [reflexivity|].
  exact (C5_failed_turn turn_broken sample_state (c := tutor)
           eq_refl eq_refl eq_refl).
Defined.

(** C5 as stated fails: when opening the stream throws, the typing flag
    is cleared, but no empty model message is left in the transcript. *)
Lemma C5_counterexample :
  option_map (fun st' => (isTyping st', existsb is_empty_model (messages st')))
             (run (handleSend turn_refused sample_state) sample_state)
  = Some (false, false).
Proof. vm_compute. reflexivity. Qed.

(** C8: every effect of every operation either leaves the transcript as
    it is, appends one entry at its end, or changes only the text of the
    entry at the last index, which is then a model message. *)
Theorem C8_transcript_invariant
    (o : Op) (st : State) (evs1 : list Event) (e : Event)
    (evs2 : list Event) (st1 : State) :
  in_order o st ->
  op_events o st = evs1 ++ e :: evs2 ->
  run evs1 st = Some st1 ->
  exists st2, apply e st1 = Some st2 /\
              transcript_step (messages st1) (messages st2).
Proof.
  intros Ho Hevs Hrun.
  exact (orderly_steps evs1 st e evs2 (orderly_op o st Ho) Hevs Hrun).
Qed.

Lemma C8_transcript_invariant_witness :
  exists st2,
    apply (UpdateLast (lit "Hello")) state_mid_stream = Some st2 /\
    transcript_step (messages state_mid_stream) (messages st2).
Proof.
  exact (C8_transcript_invariant (DoSend turn_hello) sample_state
           [ Append (userMsg turn_hello sample_state); SetInput [];
             SetIsTyping true; SendMessageStream (lit "Hi");
             Append (placeholder turn_hello); UpdateLast (lit "Hel") ]
           (UpdateLast (lit "Hello")) [ SetIsTyping false ]
           I eq_refl eq_refl).
Defined.

(** C9: with an input that is blank after trimming, [handleSend] does
    nothing: no request, and the transcript, the input field and the
    typing flag stay as they are. *)
Theorem C9_blank_input (t : Turn) (st : State) :
  trim (input st) = [] ->
  handleSend t st = [] /\
  index_where is_request (handleSend t st) = None /\
  run (handleSend t st) st = Some st.
Proof.
  intros Hblank. unfold handleSend. rewrite Hblank. repeat split.
Qed.

Lemma C9_blank_input_witness :
  trim (input blank_state) = [] /\
  handleSend turn_hello blank_state = [] /\
  index_where is_request (handleSend turn_hello blank_state) = None /\
  run (handleSend turn_hello blank_state) blank_state = Some blank_state.
Proof.
  split; [reflexivity|].
  exact (C9_blank_input turn_hello blank_state eq_refl).
Defined.

End ChatFacts.

(** ** The image generator *)

Module ImageFacts.
Import ImageGenerator ImageSpec.

(** The loop over the parts keeps the parts with a payload, in order. *)
Lemma collect_filter ps :
  collect ps = map part_url (filter has_payload ps).
Proof.
  induction ps as [|p ps IH]; [reflexivity|].
  cbn [collect filter]. unfold has_payload at 1.
  destruct (inlineData p) as [b|] eqn:Hb; [|exact IH].
  destruct (data b) as [d|] eqn:Hd; cbn [truthy_opt]; [|exact IH].
  destruct (truthy d); [|exact IH].
  cbn [map]. unfold part_url at 1. rewrite Hb, Hd. now rewrite IH.
Qed.

Lemma images_of_parts r :
  images_of r = map part_url (filter has_payload (response_parts r)).
Proof.
  unfold images_of, first_parts, response_parts.
  destruct (candidates r) as [[|c cs]|]; try reflexivity.
  destruct (content c) as [ct|]; try reflexivity.
  destruct (parts ct) as [ps|]; [apply collect_filter | reflexivity].
Qed.

(** C4 (as amended): the gallery after a response holds one entry for
    each part of the first candidate whose inline data has a non-empty
    payload, in the order of the parts, and is empty when there is none;
    the loading flag is off. *)
Theorem C4_gallery_of_response
    (w : option AIStudio) (r : Response) (st : State) :
  truthy (trim (prompt st)) = true ->
  generatedImages (run (effects (handleGenerate w (Responds r) st)) st)
  = map part_url (filter has_payload (response_parts r)) /\
  isLoading (run (effects (handleGenerate w (Responds r) st)) st) = false.
Proof.
  intros Hp. unfold handleGenerate. rewrite Hp.
  cbn. split; [apply images_of_parts | reflexivity].
Qed.

Lemma C4_gallery_of_response_witness :
  truthy (trim (prompt sample_state)) = true /\
  generatedImages
    (run (effects (handleGenerate None (Responds sample_response) sample_state))
         sample_state)
  = [ lit "data:image/png;base64,AAAA"; lit "data:image/png;base64,BBBB" ] /\
  isLoading
    (run (effects (handleGenerate None (Responds sample_response) sample_state))
         sample_state)
  = false.
Proof.
  split; [reflexivity|].
  exact (C4_gallery_of_response None sample_response sample_state eq_refl).
Defined.

(** C4 as stated fails: an inline-data part with an empty payload gives
    no gallery entry. *)
Lemma C4_counterexample :
  length (filter is_inline (response_parts hollow_response)) = 1 /\
  length (generatedImages
            (run (effects (handleGenerate None (Responds hollow_response)
                                          sample_state))
                 sample_state))
  <> length (filter is_inline (response_parts hollow_response)).
Proof. split; [reflexivity | vm_compute; discriminate]. Qed.


Lemma auth_test_spec e :
  auth_test e
  = match json_stringify e with
    | JsonText _ => Some (looks_like_auth_failure e)
    | JsonUndefined | JsonThrows => None
    end.
Proof.
  unfold auth_test, looks_like_auth_failure.
  now destruct (json_stringify e).
Qed.

Lemma no_text_no_auth e :
  match json_stringify e with
  | JsonText _ => True
  | JsonUndefined | JsonThrows => looks_like_auth_failure e = false
  end.
Proof.
  unfold looks_like_auth_failure. now destruct (json_stringify e).
Qed.

(** C6: when the request throws, the error is logged once; the key state
    is reset and the connect flow started exactly when the serialized
    error contains the marker; the handler ends with the loading flag
    off and an empty gallery, and nothing of the error but that one test
    reaches the state. *)
Theorem C6_generation_failure
    (w : option AIStudio) (e : thrown) (st : State) :
  truthy (trim (prompt st)) = true ->
  filter is_log (effects (handleGenerate w (Throws e) st))
  = [ ConsoleError GENERATION_FAILED e ] /\
  filter is_key_change (effects (handleGenerate w (Throws e) st))
  = (if looks_like_auth_failure e then [ SetHasApiKey false ] else []) /\
  filter is_connect_call (effects (handleGenerate w (Throws e) st))
  = (if looks_like_auth_failure e then handleConnectKey_call w else []) /\
  deferred (handleGenerate w (Throws e) st)
  = (if looks_like_auth_failure e then handleConnectKey_resume w else []) /\
  run (effects (handleGenerate w (Throws e) st)) st
  = {| prompt := prompt st; resolution := resolution st;
       generatedImages := []; isLoading := false;
       hasApiKey := if looks_like_auth_failure e then false
                    else hasApiKey st |} /\
  isLoading (step w st (DoGenerate (Throws e))) = false /\
  generatedImages (step w st (DoGenerate (Throws e))) = [].
Proof.
  intros Hp. unfold step, handleGenerate. rewrite Hp. cbn [negb].
  rewrite auth_test_spec. pose proof (no_text_no_auth e) as Hno.
  destruct (json_stringify e); try rewrite Hno;
    try (cbn; repeat split; reflexivity).
  destruct (looks_like_auth_failure e);
    [|cbn; repeat split; reflexivity].
  destruct w as [[h [[u|x]|]]|]; cbn; repeat split; reflexivity.
Qed.

Lemma C6_generation_failure_witness :
  truthy (trim (prompt sample_state)) = true /\
  looks_like_auth_failure auth_error = true /\
  run (effects (handleGenerate (Some studio) (Throws auth_error) sample_state))
      sample_state
  = {| prompt := lit "a volcano"; resolution := RES_2K;
       generatedImages := []; isLoading := false; hasApiKey := false |} /\
  filter is_connect_call
    (effects (handleGenerate (Some studio) (Throws auth_error) sample_state))
  = [ CallOpenSelectKey ].
Proof.
  split; [reflexivity|]. split; [vm_compute; reflexivity|].
  pose proof (C6_generation_failure (Some studio) auth_error sample_state
                eq_refl) as (_ & _ & Hcall & _ & Hrun & _).
  split; [exact Hrun | exact Hcall].
Defined.

Lemma run_ops_cons w o ops st :
  run_ops w (o :: ops) st = run_ops w ops (step w st o).
Proof. reflexivity. Qed.

(** Without the host capability, an operation other than a failure that
    matches the heuristic keeps the key present. *)
Lemma step_keeps_key o st :
  is_auth_failure o = false -> hasApiKey st = true ->
  hasApiKey (step None st o) = true.
Proof.
  intros Ho Hk. destruct o as [ | | s | r | [r | e]]; try exact Hk.
  - unfold step, handleGenerate.
    destruct (negb (truthy (trim (prompt st)))); exact Hk.
  - cbn [is_auth_failure] in Ho. unfold step, handleGenerate.
    destruct (negb (truthy (trim (prompt st)))); [exact Hk|].
    rewrite auth_test_spec. pose proof (no_text_no_auth e) as Hno.
    destruct (json_stringify e); try exact Hk.
    rewrite Ho. exact Hk.
Qed.

(** C10 (as amended): without the host capability the key check and
    the connect action change nothing, so the mount keeps the key
    present; the key state is then lost only through a generation
    failure that matches the authentication heuristic. *)
Theorem C10_absent_host :
  (forall st, run (checkApiKey None) st = st /\
              run (handleConnectKey None) st = st) /\
  hasApiKey (step None initial DoMount) = true /\
  (forall ops st,
     hasApiKey st = true ->
     forallb (fun o => negb (is_auth_failure o)) ops = true ->
     hasApiKey (run_ops None ops st) = true).
Proof.
  split; [intros st; split; reflexivity|]. split; [reflexivity|].
  induction ops as [|o ops IH]; intros st Hk Hops; [exact Hk|].
  cbn [forallb] in Hops. apply andb_true_iff in Hops as [Ho Hops].
  rewrite run_ops_cons. apply IH; [|exact Hops].
  apply step_keeps_key; [|exact Hk]. now destruct (is_auth_failure o).
Qed.

Lemma C10_absent_host_witness :
  hasApiKey initial = true /\
  hasApiKey
    (run_ops None
       [ DoMount; DoType (lit "a volcano"); DoChoose RES_4K;
         DoGenerate (Responds sample_response); DoConnectKey;
         DoGenerate (Throws {| json_stringify := JsonText (lit "{}") |}) ]
       initial)
  = true.
Proof.
  split; [reflexivity|].
  apply (proj2 (proj2 C10_absent_host)); [reflexivity | vm_compute; reflexivity].
Defined.

(** C10 as stated fails: without the host capability, a generation
    failure that matches the heuristic still resets the key state, and
    the connect action cannot restore it. *)
Lemma C10_counterexample :
  hasApiKey
    (run_ops None
       [ DoMount; DoType (lit "a volcano");
         DoGenerate (Throws auth_error); DoConnectKey ]
       initial)
  = false.
Proof. vm_compute. reflexivity. Qed.

End ImageFacts.

(** ** Further facts about the string primitives *)

Module StringFacts.
Import JSFacts MoreSpec.

Lemma trimStart_fixed s :
  trimStart s = s <-> match s with [] => True | c :: _ => is_white c = false end.
Proof.
  destruct s as [|c s]; cbn [trimStart]; [tauto|].
  destruct (is_white c) eqn:E; split; intros H; try reflexivity;
    try discriminate.
  exfalso. clear E. revert c H.
  induction s as [|d s IH]; intros c H; cbn [trimStart] in H; [discriminate|].
  destruct (is_white d); [|apply (f_equal (@length _)) in H; cbn in H; lia].
  assert (Hlen : forall t, length (trimStart t) <= length t).
  { induction t as [|x t IHt]; cbn; [lia|]. destruct (is_white x); cbn; lia. }
  apply (f_equal (@length _)) in H. specialize (Hlen s). cbn in H. lia.
Qed.

Lemma trimStart_suffix s : exists ws, s = ws ++ trimStart s.
Proof.
  induction s as [|c s [ws IH]]; [now exists []|].
  cbn [trimStart]. destruct (is_white c).
  - exists (c :: ws). cbn. now rewrite <- IH.
  - now exists [].
Qed.

Lemma trimStart_idem s : trimStart (trimStart s) = trimStart s.
Proof.
  induction s as [|c s IH]; [reflexivity|].
  cbn [trimStart]. destruct (is_white c) eqn:E; [exact IH|].
  cbn [trimStart]. now rewrite E.
Qed.

Lemma trimEnd_prefix s : exists ws, s = trimEnd s ++ ws.
Proof.
  unfold trimEnd. destruct (trimStart_suffix (rev s)) as [ws H].
  exists (rev ws). rewrite <- rev_app_distr, <- H. now rewrite rev_involutive.
Qed.

Lemma trimEnd_idem s : trimEnd (trimEnd s) = trimEnd s.
Proof.
  unfold trimEnd. now rewrite rev_involutive, trimStart_idem.
Qed.

(** Trimming the end keeps a text that starts with no white space so. *)
Lemma trimStart_trimEnd s :
  trimStart s = s -> trimStart (trimEnd s) = trimEnd s.
Proof.
  intros H. apply trimStart_fixed. apply trimStart_fixed in H.
  destruct (trimEnd_prefix s) as [ws Hs].
  destruct (trimEnd s) as [|c t]; [exact I|].
  rewrite Hs in H. exact H.
Qed.

Lemma trim_idem s : trim (trim s) = trim s.
Proof.
  unfold trim. rewrite (trimStart_trimEnd (trimStart_idem s)).
  apply trimEnd_idem.
Qed.

(** A trimmed text is a piece of the text. *)
Lemma trim_middle s : exists l r, s = l ++ trim s ++ r.
Proof.
  unfold trim. destruct (trimStart_suffix s) as [l Hl].
  destruct (trimEnd_prefix (trimStart s)) as [r Hr].
  exists l, r. now rewrite <- Hr.
Qed.

Lemma startsWith_app p s t :
  startsWith p s = true -> startsWith p (s ++ t) = true.
Proof.
  revert s. induction p as [|a p IH]; intros [|b s] H; cbn in *;
    try reflexivity; try discriminate.
  apply andb_true_iff in H as [Hab Hp]. rewrite Hab. cbn. now apply IH.
Qed.

Lemma startsWith_self p t : startsWith p (p ++ t) = true.
Proof.
  induction p as [|a p IH]; [reflexivity|].
  cbn. unfold unit_eqb. now rewrite N.eqb_refl.
Qed.

Lemma includes_cons p c s :
  includes p (c :: s) = startsWith p (c :: s) || includes p s.
Proof. reflexivity. Qed.

Lemma includes_app_r p l s : includes p s = true -> includes p (l ++ s) = true.
Proof.
  intros H. induction l as [|c l IH]; [exact H|].
  cbn [app]. rewrite includes_cons, IH. apply orb_true_r.
Qed.

Lemma includes_app_l p s r : includes p s = true -> includes p (s ++ r) = true.
Proof.
  induction s as [|c s IH]; intros H.
  - cbn in H. rewrite orb_false_r in H.
    destruct p; [|discriminate]. now destruct r.
  - cbn [app]. rewrite includes_cons in *.
    apply orb_true_iff in H as [H|H].
    + change (c :: s ++ r) with ((c :: s) ++ r).
      now rewrite startsWith_app.
    + rewrite IH by exact H. apply orb_true_r.
Qed.

(** A text that holds no [p] has none in any of its pieces. *)
Lemma includes_middle p l s r :
  includes p (l ++ s ++ r) = false -> includes p s = false.
Proof.
  intros H. destruct (includes p s) eqn:E; [|reflexivity].
  rewrite includes_app_r in H; [discriminate|].
  now apply includes_app_l.
Qed.

Lemma first_rest_lines s :
  (s = first_line s /\ rest_lines s = [] /\ ~ In LF s)
  \/ s = first_line s ++ [LF] ++ rest_lines s.
Proof.
  induction s as [|c s IH]; [left; repeat split; auto|].
  cbn [first_line rest_lines]. unfold unit_eqb.
  destruct (N.eqb_spec c LF) as [->|Hc]; [now right|].
  destruct IH as [(H1 & H2 & H3)|H].
  - left. repeat split; [now rewrite <- H1 | exact H2 |].
    intros [Hin|Hin]; [now apply Hc | now apply H3].
  - right. cbn [app]. f_equal. exact H.
Qed.

Lemma first_line_no_LF s : ~ In LF (first_line s).
Proof.
  induction s as [|c s IH]; [intros []|].
  cbn [first_line]. unfold unit_eqb.
  destruct (N.eqb_spec c LF) as [->|Hc]; [intros []|].
  intros [Hin|Hin]; [now apply Hc | now apply IH].
Qed.

Lemma first_line_piece s : exists r, s = first_line s ++ r.
Proof.
  destruct (first_rest_lines s) as [(H & _)|H]; [exists []|eexists; exact H].
  now rewrite app_nil_r.
Qed.

Lemma rest_lines_piece s : exists l, s = l ++ rest_lines s.
Proof.
  destruct (first_rest_lines s) as [(_ & H & _)|H].
  - exists s. now rewrite H, app_nil_r.
  - exists (first_line s ++ [LF]). now rewrite <- app_assoc.
Qed.

End StringFacts.

Module SplitFacts.
Import JSFacts MoreSpec StringFacts.

Lemma includes_false p s :
  includes p s = false <-> (forall a b, s = a ++ b -> startsWith p b = false).
Proof.
  induction s as [|c s IH].
  - cbn. rewrite orb_false_r. split.
    + intros H a b Hab. symmetry in Hab.
      apply app_eq_nil in Hab as [_ ->]. exact H.
    + intros H. exact (H [] [] eq_refl).
  - rewrite includes_cons, orb_false_iff, IH. split.
    + intros [H1 H2] [|x a] b Hab.
      * cbn in Hab. now subst b.
      * injection Hab as _ Hab. now apply (H2 a).
    + intros H. split; [exact (H [] _ eq_refl)|].
      intros a b Hab. apply (H (c :: a)). cbn. now rewrite Hab.
Qed.

Lemma startsWith_app_false p s t :
  startsWith p (s ++ t) = false -> startsWith p s = false.
Proof.
  intros H. destruct (startsWith p s) eqn:E; [|reflexivity].
  now rewrite startsWith_app in H.
Qed.

Lemma clean_upto_closed p cur s :
  p <> [] -> clean_upto p cur s -> includes p cur = false.
Proof.
  intros Hp H. apply includes_false. intros a b Hab.
  destruct b as [|x b]; [now destruct p|].
  apply startsWith_app_false with (t := s). now apply (H a).
Qed.

Lemma clean_upto_nil p s : clean_upto p [] s.
Proof.
  intros a b Hab Hb. symmetry in Hab. apply app_eq_nil in Hab as [_ ->].
  now contradiction Hb.
Qed.

Lemma clean_upto_step p cur c s :
  clean_upto p cur (c :: s) -> startsWith p (c :: s) = false ->
  clean_upto p (cur ++ [c]) s.
Proof.
  intros H Hc a b Hab Hb.
  destruct (exists_last Hb) as (b' & x & ->).
  rewrite app_assoc in Hab. apply app_inj_tail in Hab as [Hcur ->].
  rewrite <- app_assoc. cbn [app].
  destruct b' as [|y b']; [exact Hc|].
  now apply (H a).
Qed.

(** No piece of a split holds the separator. *)
Lemma split_from_clean sep cur s :
  sep <> [] -> clean_upto sep cur s ->
  Forall (fun piece => includes sep piece = false) (split_from sep cur s).
Proof.
  intros Hne. funelim (split_from sep cur s); intros Hclean.
  - constructor; [|constructor].
    now apply clean_upto_closed with (s := []).
  - constructor; [now apply clean_upto_closed with (s := c :: s')|].
    apply H; [exact Hne | apply clean_upto_nil].
  - apply H; [exact Hne|]. now apply clean_upto_step.
Qed.

Lemma split_clean sep s :
  sep <> [] -> Forall (fun piece => includes sep piece = false) (split sep s).
Proof. intros Hne. apply split_from_clean; [exact Hne | apply clean_upto_nil]. Qed.

(** Splitting on one code unit. *)
Lemma split_unit_none a cur s :
  ~ In a s -> split_from [a] cur s = [cur ++ s].
Proof.
  revert cur. induction s as [|c s IH]; intros cur Hin.
  - simp split_from. now rewrite app_nil_r.
  - rewrite split_from_miss.
    + rewrite IH by (intros H; apply Hin; now right).
      now rewrite <- app_assoc.
    + rewrite startsWith_unit. apply N.eqb_neq. intros ->. apply Hin. now left.
Qed.

Lemma split_unit_first a cur h r :
  ~ In a h ->
  split_from [a] cur (h ++ a :: r) = (cur ++ h) :: split_from [a] [] r.
Proof.
  revert cur. induction h as [|c h IH]; intros cur Hin.
  - cbn [app]. rewrite split_from_hit
      by (rewrite startsWith_unit; apply N.eqb_refl).
    now rewrite app_nil_r.
  - cbn [app]. rewrite split_from_miss.
    + rewrite IH by (intros H; apply Hin; now right).
      now rewrite <- app_assoc.
    + rewrite startsWith_unit. apply N.eqb_neq. intros ->. apply Hin. now left.
Qed.

(** The delimiter does not match across the end of a text without it. *)
Lemma delimiter_no_straddle c seg rest :
  startsWith Analyzer.DELIMITER (c :: seg) = false ->
  startsWith Analyzer.DELIMITER (c :: seg ++ Analyzer.DELIMITER ++ rest) = false.
Proof.
  destruct seg as [|x [|y seg]]; cbn; intros H.
  - now rewrite andb_false_r.
  - now rewrite !andb_false_r.
  - exact H.
Qed.

Lemma split_delimiter_block seg : forall cur rest,
  includes Analyzer.DELIMITER seg = false ->
  split_from Analyzer.DELIMITER cur (seg ++ Analyzer.DELIMITER ++ rest)
  = (cur ++ seg) :: split_from Analyzer.DELIMITER [] rest.
Proof.
  induction seg as [|c seg IH]; intros cur rest Hseg.
  - cbn [app]. change (Analyzer.DELIMITER ++ rest)
      with (35%N :: 35%N :: 32%N :: rest).
    rewrite split_from_hit by reflexivity. now rewrite app_nil_r.
  - rewrite includes_cons in Hseg. apply orb_false_iff in Hseg as [Hc Hseg].
    cbn [app]. rewrite split_from_miss by now apply delimiter_no_straddle.
    rewrite IH by exact Hseg. now rewrite <- app_assoc.
Qed.

Lemma split_delimiter_last seg : forall cur,
  includes Analyzer.DELIMITER seg = false ->
  split_from Analyzer.DELIMITER cur seg = [cur ++ seg].
Proof.
  induction seg as [|c seg IH]; intros cur Hseg.
  - simp split_from. now rewrite app_nil_r.
  - rewrite includes_cons in Hseg. apply orb_false_iff in Hseg as [Hc Hseg].
    rewrite split_from_miss by exact Hc.
    rewrite IH by exact Hseg. now rewrite <- app_assoc.
Qed.

(** A text written as blocks under the delimiter splits into its blocks. *)
Lemma split_blocks segs : forall cur pre,
  includes Analyzer.DELIMITER pre = false ->
  Forall (fun seg => includes Analyzer.DELIMITER seg = false) segs ->
  split_from Analyzer.DELIMITER cur
    (pre ++ concat (map (fun seg => Analyzer.DELIMITER ++ seg) segs))
  = (cur ++ pre) :: segs.
Proof.
  induction segs as [|seg segs IH]; intros cur pre Hpre Hsegs.
  - cbn. rewrite app_nil_r. now apply split_delimiter_last.
  - inversion Hsegs as [|? ? Hseg Hrest]; subst.
    cbn [map concat]. rewrite <- app_assoc.
    rewrite split_delimiter_block by exact Hpre.
    now rewrite IH.
Qed.

End SplitFacts.

(** ** More on the analyzer *)

Module AnalyzerMore.
Import Analyzer AnalyzerSpec AnalyzerView MoreSpec.
Import JSFacts StringFacts SplitFacts AnalyzerFacts.

Lemma Forall_mapi_from {A B} (P : B -> Prop) (f : nat -> A -> B) xs :
  (forall i x, In x xs -> P (f i x)) ->
  forall start, Forall P (mapi_from start f xs).
Proof.
  induction xs as [|x xs IH]; intros Hf start; cbn [mapi_from];
    constructor.
  - apply Hf. now left.
  - apply IH. intros i y Hy. apply Hf. now right.
Qed.

Lemma In_trim x s : In x (trim s) -> In x s.
Proof.
  intros H. destruct (trim_middle s) as (l & r & Hs). rewrite Hs.
  apply in_or_app. right. apply in_or_app. now left.
Qed.

Lemma displayed_forall (P : Section -> Prop) text :
  (forall i seg, In seg (split DELIMITER text) -> P (section_at i seg)) ->
  Forall P (displayed (Some text)).
Proof.
  intros H. rewrite displayed_sections. apply Forall_mapi_from.
  intros i seg Hin. apply H.
  destruct (split DELIMITER text); [destruct Hin | now right].
Qed.

(** X1: every heading shown is one line, and headings and bodies are
    shown without white space around them. *)
Theorem sections_are_trimmed (r : option jsstr) :
  Forall (fun sec => ~ In LF (title sec) /\
                     trim (title sec) = title sec /\
                     trim (body sec) = body sec)
         (displayed r).
Proof.
  destruct r as [text|]; [|constructor].
  apply displayed_forall. intros i seg _. cbn [title body section_at].
  repeat split; try apply trim_idem.
  intros H. apply In_trim in H. now apply first_line_no_LF in H.
Qed.

Lemma includes_trim_false p s :
  includes p s = false -> includes p (trim s) = false.
Proof.
  intros H. destruct (trim_middle s) as (l & r & Hs). rewrite Hs in H.
  now apply includes_middle in H.
Qed.

(** X2: no heading and no body on screen holds the delimiter. *)
Theorem sections_hold_no_delimiter (r : option jsstr) :
  Forall (fun sec => includes DELIMITER (title sec) = false /\
                     includes DELIMITER (body sec) = false)
         (displayed r).
Proof.
  destruct r as [text|]; [|constructor].
  apply displayed_forall. intros i seg Hin. cbn [title body section_at].
  assert (Hseg : includes DELIMITER seg = false).
  { pose proof (split_clean (sep := DELIMITER) text) as Hall.
    rewrite Forall_forall in Hall. apply Hall; [discriminate | exact Hin]. }
  split; apply includes_trim_false.
  - destruct (first_line_piece seg) as [t Ht]. rewrite Ht in Hseg.
    apply (includes_middle DELIMITER [] (first_line seg) t). exact Hseg.
  - destruct (rest_lines_piece seg) as [l Hl]. rewrite Hl in Hseg.
    apply (includes_middle DELIMITER l (rest_lines seg) []).
    now rewrite app_nil_r.
Qed.



Lemma lines_of_block t b :
  ~ In LF t ->
  first_line (t ++ [LF] ++ b) = t /\ rest_lines (t ++ [LF] ++ b) = b.
Proof.
  induction t as [|c t IH]; intros Hin.
  - split; reflexivity.
  - cbn [app first_line rest_lines]. unfold unit_eqb.
    destruct (N.eqb_spec c LF) as [->|Hc]; [exfalso; apply Hin; now left|].
    destruct IH as [H1 H2]; [intros H; apply Hin; now right|].
    cbn [app] in H1, H2. now rewrite H1, H2.
Qed.

(** X4: a response written as the system prompt asks, one-line headings
    under the delimiter and no delimiter elsewhere, is shown block by
    block: every heading and every text, trimmed, in order, whatever
    precedes the first heading. *)
Theorem render_document (pre : jsstr) (blocks : list (jsstr * jsstr)) :
  includes DELIMITER pre = false ->
  Forall plain_block blocks ->
  map (fun sec => (title sec, body sec))
      (displayed (Some (document pre blocks)))
  = map (fun tb => (trim (fst tb), trim (snd tb))) blocks.
Proof.
  intros Hpre Hblocks. rewrite displayed_sections. unfold split, document.
  assert (Hmap : map heading_block blocks
                 = map (fun seg => DELIMITER ++ seg)
                       (map (fun tb => fst tb ++ [LF] ++ snd tb) blocks))
    by (rewrite map_map; reflexivity).
  rewrite Hmap, split_blocks; [|exact Hpre|].
  - cbn [tl]. generalize 1. clear Hmap.
    induction Hblocks as [|tb blocks [Hlf _] _ IH]; intros start;
      [reflexivity|].
    cbn [map mapi_from title body section_at].
    destruct (@lines_of_block (fst tb) (snd tb) Hlf) as [H1 H2].
    f_equal; [|apply IH].
    f_equal; f_equal; [exact H1 | exact H2].
  - apply Forall_map. eapply Forall_impl; [|exact Hblocks].
    intros tb [_ H]. exact H.
Qed.

Lemma render_document_witness :
  includes DELIMITER (lit "Sure! ") = false /\
  Forall plain_block sample_blocks /\
  map (fun sec => (title sec, body sec))
      (displayed (Some (document (lit "Sure! ") sample_blocks)))
  = [ (lit "1. Extracted Question", lit "What is x + 7 = 10?");
      (lit "2. Detailed Solution", lit "x = 3") ].
Proof.
  assert (Hpre : includes DELIMITER (lit "Sure! ") = false) by reflexivity.
  assert (Hb : Forall plain_block sample_blocks).
  { repeat constructor; cbn; intuition discriminate. }
  split; [exact Hpre|]. split; [exact Hb|].
  exact (render_document (lit "Sure! ") Hpre Hb).
Defined.

(** X5: a stored text without the delimiter shows no section at all. *)
Theorem no_delimiter_no_section (text : jsstr) :
  includes DELIMITER text = false -> displayed (Some text) = [].
Proof.
  intros H. rewrite displayed_sections. unfold split.
  now rewrite split_delimiter_last.
Qed.

Lemma no_delimiter_no_section_witness :
  includes DELIMITER (lit "The answer is 42.") = false /\
  displayed (Some (lit "The answer is 42.")) = [].
Proof.
  split; [reflexivity|].
  exact (no_delimiter_no_section (lit "The answer is 42.") eq_refl).
Defined.

End AnalyzerMore.

Module AnalyzerStateFacts.
Import Analyzer AnalyzerSpec AnalyzerView MoreSpec.
Import JSFacts StringFacts SplitFacts AnalyzerFacts AnalyzerMore.

Lemma run_handleAnalyze o st f :
  file st = Some f ->
  run (handleAnalyze o st) st
  = {| file := Some f; previewUrl := previewUrl st;
       isAnalyzing := false; result := stored_result o |}.
Proof.
  intros Hf. unfold handleAnalyze, stored_result. rewrite Hf.
  rewrite <- Hf at 1.
  destruct (blobToBase64 (reader o)) as [d | e]; [|reflexivity].
  destruct (request o) as [e | txt];
    [reflexivity | destruct (truthy_opt txt); reflexivity].
Qed.

Lemma stored_result_not_empty o : stored_result o <> Some [].
Proof.
  unfold stored_result.
  destruct (blobToBase64 (reader o)) as [d | e]; [|discriminate].
  destruct (request o) as [e | txt]; [discriminate|].
  destruct (truthy_opt txt) eqn:Ht; [|discriminate].
  intros ->. discriminate.
Qed.

Lemma stored_result_failed o :
  analysis_failed o = true -> stored_result o = Some ANALYSIS_ERROR.
Proof.
  unfold analysis_failed, stored_result.
  destruct (blobToBase64 (reader o)) as [d | e]; [|reflexivity].
  destruct (request o); [reflexivity | discriminate].
Qed.

Lemma error_text_shows_nothing : displayed (Some ANALYSIS_ERROR) = [].
Proof.
  rewrite displayed_sections. unfold split.
  now rewrite split_delimiter_last.
Qed.

Lemma settled_initial : settled_state initial.
Proof. split; [reflexivity | split; [discriminate | reflexivity]]. Qed.

Lemma settled_step st o : settled_state st -> settled_state (analyzer_step st o).
Proof.
  intros (Ha & Hr & Hp). destruct o as [f id | out]; cbn [analyzer_step].
  - split; [exact Ha | split; [discriminate | reflexivity]].
  - destruct (file st) as [f|] eqn:Hf.
    + rewrite (run_handleAnalyze out st Hf).
      split; [reflexivity | split; [apply stored_result_not_empty | exact Hp]].
    + unfold handleAnalyze. rewrite Hf. cbn.
      split; [exact Ha | split; [exact Hr | now rewrite Hp, Hf]].
Qed.

Lemma settled_ops ops : forall st,
  settled_state st -> settled_state (analyzer_ops ops st).
Proof.
  induction ops as [|o ops IH]; intros st H; [exact H|].
  cbn. apply IH. now apply settled_step.
Qed.

(** X6: after any sequence of file choices and analyses from the start,
    no analysis is running and a stored result is never the empty text;
    so the right column shows either the hint or the result block, never
    both and never the spinner, and the Analyze button is offered exactly
    when a file is chosen and no result is stored. *)
Theorem analyzer_between_operations (ops : list AnalyzerOp) :
  let st := analyzer_ops ops initial in
  spinner (right_column st) = false /\
  ready_hint (right_column st)
  = match sections (right_column st) with Some _ => false | None => true end /\
  (sections (right_column st) = None <-> result st = None) /\
  analyze_offered st
  = match file st, result st with
    | Some _, None => true
    | _, _ => false
    end.
Proof.
  cbn zeta. destruct (settled_ops ops settled_initial) as (Ha & Hr & Hp).
  revert Ha Hr Hp. generalize (analyzer_ops ops initial). intros st Ha Hr Hp.
  unfold right_column, analyze_offered. cbn [spinner ready_hint sections].
  rewrite Ha, Hp.
  destruct (result st) as [[|c r]|]; [now contradiction Hr | |];
    cbn; repeat split; try discriminate; try reflexivity;
    destruct (file st); reflexivity.
Qed.

(** X7: when an analysis fails on a chosen file, the result block is
    rendered with no section in it, since the stored error text holds no
    delimiter, and the Analyze button is not offered again. *)
Theorem failed_analysis_shows_nothing
    (st : State) (f : File) (o : Outcome) :
  file st = Some f ->
  analysis_failed o = true ->
  right_column (run (handleAnalyze o st) st)
  = {| ready_hint := false; spinner := false; sections := Some [] |} /\
  analyze_offered (run (handleAnalyze o st) st) = false.
Proof.
  intros Hf Ho. rewrite (run_handleAnalyze o st Hf).
  rewrite (stored_result_failed o Ho).
  unfold right_column, analyze_offered.
  cbn -[displayed ANALYSIS_ERROR].
  split; [|now rewrite andb_false_r].
  now rewrite error_text_shows_nothing.
Qed.

Lemma failed_analysis_shows_nothing_witness :
  file sample_state = Some sample_file /\
  analysis_failed sample_failure = true /\
  sections (right_column
              (run (handleAnalyze sample_failure sample_state) sample_state))
  = Some [].
Proof.
  split; [reflexivity|]. split; [reflexivity|].
  exact (f_equal sections
           (proj1 (failed_analysis_shows_nothing
                     sample_state (f := sample_file)
                     sample_failure eq_refl eq_refl))).
Defined.

End AnalyzerStateFacts.

Module EncodingFacts.
Import Analyzer AnalyzerSpec AnalyzerView MoreSpec.
Import JSFacts StringFacts SplitFacts.

(** X8: from a data URL, a header without comma, a comma and a payload
    without comma, [blobToBase64] gives the payload, also when it is
    empty. *)
Theorem blobToBase64_payload (header payload : jsstr) :
  ~ In COMMA header -> ~ In COMMA payload ->
  blobToBase64 (LoadEnd (Some (header ++ [COMMA] ++ payload)))
  = Fulfilled (Some payload).
Proof.
  intros Hh Hp. unfold blobToBase64, split. cbn [app].
  rewrite split_unit_first by exact Hh.
  now rewrite split_unit_none by exact Hp.
Qed.

Lemma blobToBase64_payload_witness :
  ~ In COMMA (lit "data:image/png;base64") /\
  ~ In COMMA (lit "aGk=") /\
  blobToBase64 (LoadEnd (Some (lit "data:image/png;base64,aGk=")))
  = Fulfilled (Some (lit "aGk=")).
Proof.
  assert (H1 : ~ In COMMA (lit "data:image/png;base64"))
    by (cbn; intuition discriminate).
  assert (H2 : ~ In COMMA (lit "aGk=")) by (cbn; intuition discriminate).
  split; [exact H1|]. split; [exact H2|].
  exact (blobToBase64_payload _ _ H1 H2).
Defined.

(** X9: a reader text without any comma does not reject: the promise
    resolves with undefined. *)
Theorem blobToBase64_no_comma (s : jsstr) :
  ~ In COMMA s -> blobToBase64 (LoadEnd (Some s)) = Fulfilled None.
Proof.
  intros Hs. unfold blobToBase64, split.
  now rewrite split_unit_none by exact Hs.
Qed.

Lemma blobToBase64_no_comma_witness :
  ~ In COMMA (lit "data:") /\
  blobToBase64 (LoadEnd (Some (lit "data:"))) = Fulfilled None.
Proof.
  assert (H : ~ In COMMA (lit "data:")) by (cbn; intuition discriminate).
  split; [exact H | exact (blobToBase64_no_comma _ H)].
Defined.

Lemma split_unit_head a s : forall cur,
  hd_error (split_from [a] cur s) = Some (cur ++ upto a s).
Proof.
  induction s as [|c s IH]; intros cur.
  - simp split_from. cbn. now rewrite app_nil_r.
  - cbn [upto]. unfold unit_eqb. destruct (N.eqb c a) eqn:E.
    + rewrite split_from_hit by now rewrite startsWith_unit.
      cbn. now rewrite app_nil_r.
    + rewrite split_from_miss by now rewrite startsWith_unit.
      rewrite IH. now rewrite <- app_assoc.
Qed.

(** The second piece of a split on one code unit. *)
Lemma split_unit_second a s : forall cur,
  nth_error (split_from [a] cur s) 1 = second_field a s.
Proof.
  induction s as [|c s IH]; intros cur.
  - simp split_from. reflexivity.
  - cbn [second_field]. unfold unit_eqb. destruct (N.eqb c a) eqn:E.
    + rewrite split_from_hit by now rewrite startsWith_unit.
      cbn [nth_error length Nat.sub skipn].
      pose proof (split_unit_head a s []) as Hh.
      destruct (split_from [a] [] s); [discriminate | exact Hh].
    + rewrite split_from_miss by now rewrite startsWith_unit. apply IH.
Qed.

(** X10: an analysis never changes the chosen file or its preview; it
    sends nothing without a file or when the reader does not end with a
    text, and else one request with the MIME type of the file and, as data,
    what [blobToBase64] resolved with: the text between the first comma of
    the reader's text and the next one, or undefined when the text has no
    comma. *)
Theorem analysis_requests (o : Outcome) (st : State) :
  file (run (handleAnalyze o st) st) = file st /\
  previewUrl (run (handleAnalyze o st) st) = previewUrl st /\
  filter is_analysis_request (handleAnalyze o st)
  = match file st, reader o with
    | Some f, LoadEnd (Some s) =>
        [ GenerateContent (file_type f) (second_field COMMA s) ]
    | _, _ => []
    end.
Proof.
  unfold handleAnalyze. destruct (file st) as [f|] eqn:Hf;
    [|now repeat split].
  destruct (reader o) as [[s|] | e]; cbn [blobToBase64].
  - unfold split. rewrite split_unit_second.
    destruct (request o) as [e | txt]; [|destruct (truthy_opt txt)];
      cbn; now rewrite Hf.
  - cbn. now rewrite Hf.
  - cbn. now rewrite Hf.
Qed.

End EncodingFacts.

(** ** More on the chat controller *)

Module ChatMore.
Import ChatBot ChatSpec ChatView MoreSpec.
Import ChatFacts.

(** X11: a turn whose stream completes leaves exactly two new entries
    after the old transcript, the user message with the input as typed
    and one model message whose text is all the fragments in order; the
    input is cleared and the typing flag is off. *)
Theorem completed_turn (t : Turn) (st : State) (c : Chat) (chunks : list Chunk) :
  truthy (trim (input st)) = true ->
  chatRef st = Some c ->
  reply t = Opened chunks Completes ->
  run (handleSend t st) st
  = Some {| messages :=
              messages st
              ++ [ {| role := user; text := input st;
                      timestamp := now_user t |};
                   {| role := model; text := concat (fragments chunks);
                      timestamp := now_placeholder t |} ];
            input := []; isTyping := false; chatRef := Some c |}.
Proof.
  intros Hin Hc Hr. rewrite (run_handleSend t st Hin Hc).
  unfold reply_entries. rewrite Hr, Hc. reflexivity.
Qed.

Lemma completed_turn_witness :
  truthy (trim (input sample_state)) = true /\
  chatRef sample_state = Some tutor /\
  run (handleSend turn_hello sample_state) sample_state
  = Some {| messages :=
              messages sample_state
              ++ [ {| role := user; text := lit "Hi"; timestamp := 1 |};
                   {| role := model; text := lit "Hello"; timestamp := 2 |} ];
            input := []; isTyping := false; chatRef := Some tutor |}.
Proof.
  split; [reflexivity|]. split; [reflexivity|].
  exact (completed_turn turn_hello sample_state eq_refl eq_refl eq_refl).
Defined.

Lemma filter_stream_loop (p : Event -> bool) texts :
  (forall txt, p (UpdateLast txt) = false) ->
  filter p (map UpdateLast texts) = [].
Proof.
  intros Hp. induction texts as [|x texts IH]; [reflexivity|].
  cbn [map filter]. now rewrite Hp.
Qed.

Lemma requests_of_send t st c :
  truthy (trim (input st)) = true ->
  chatRef st = Some c ->
  filter is_request (handleSend t st) = [ SendMessageStream (input st) ].
Proof.
  intros Hin Hc. rewrite (handleSend_passes t st Hin Hc).
  destruct (reply t) as [e | chunks fin]; [reflexivity|].
  cbn [app filter is_request].
  rewrite !filter_app, !filter_stream_loop by reflexivity.
  now destruct fin.
Qed.

(** X12: a turn with a non-blank input sends one request, with the input
    as typed, not trimmed; it logs one error when the request fails and
    none otherwise. *)
Theorem turn_requests_and_logs (t : Turn) (st : State) (c : Chat) :
  truthy (trim (input st)) = true ->
  chatRef st = Some c ->
  filter is_request (handleSend t st) = [ SendMessageStream (input st) ] /\
  length (filter is_chat_log (handleSend t st))
  = (if failed (reply t) then 1 else 0).
Proof.
  intros Hin Hc. split; [exact (requests_of_send t st Hin Hc)|].
  rewrite (handleSend_passes t st Hin Hc).
  destruct (reply t) as [e | chunks fin]; [reflexivity|].
  cbn [app filter is_chat_log].
  rewrite !filter_app, !filter_stream_loop by reflexivity.
  now destruct fin.
Qed.

Lemma turn_requests_and_logs_witness :
  truthy (trim (input sample_state)) = true /\
  chatRef sample_state = Some tutor /\
  filter is_request (handleSend turn_broken sample_state)
  = [ SendMessageStream (lit "Hi") ] /\
  length (filter is_chat_log (handleSend turn_broken sample_state)) = 1.
Proof.
  split; [reflexivity|]. split; [reflexivity|].
  exact (turn_requests_and_logs turn_broken sample_state eq_refl eq_refl).
Defined.

Lemma snapshots_keep (P : State -> Prop) evs :
  (forall e s s', In e evs -> P s -> apply e s = Some s' -> P s') ->
  forall st, P st -> Forall P (snapshots evs st).
Proof.
  induction evs as [|e evs IH]; intros Hstep st Hst; [constructor|].
  cbn [snapshots]. destruct (apply e st) as [st'|] eqn:Ha; [|constructor].
  assert (Hst' : P st') by (apply (Hstep e st st'); [now left | exact Hst | exact Ha]).
  assert (Hrest : Forall P (snapshots evs st'))
    by (apply IH; [intros e0 s s' Hin; apply Hstep; now right | exact Hst']).
  destruct e; try exact Hrest. now constructor.
Qed.

Lemma in_stream_loop e texts :
  In e (map UpdateLast texts) -> exists txt, e = UpdateLast txt.
Proof.
  intros Hin. apply in_map_iff in Hin as (txt & <- & _). now eexists.
Qed.

(** X13: at every fragment update of a turn the typing flag is set and
    the input is empty, so the input field and the send button are
    disabled for as long as the stream runs. *)
Theorem guard_up_while_streaming (t : Turn) (st : State) :
  Forall (fun s => input s = [] /\ isTyping s = true /\
                   input_disabled s = true /\ send_disabled s = true)
         (snapshots (handleSend t st) st).
Proof.
  assert (Hgoal : Forall (fun s => input s = [] /\ isTyping s = true)
                         (snapshots (handleSend t st) st)).
  { unfold handleSend.
    destruct (negb (truthy (trim (input st)))); [constructor|].
    destruct (chatRef st); [|constructor].
    cbn [app snapshots apply].
    destruct (reply t) as [e | chunks fin]; [constructor|].
    cbn [app snapshots apply]. rewrite stream_loop_written, !snapshots_app.
    apply Forall_app. split; [apply Forall_app; split|].
    - apply snapshots_keep; [|now split].
      intros e s s' Hin [Hi Ht] Ha.
      destruct (in_stream_loop _ _ Hin) as [txt ->]. cbn in Ha.
      destruct (update_last txt (messages s)); [|discriminate].
      injection Ha as <-. now split.
    - destruct (run (map UpdateLast _) _); [|constructor].
      destruct fin; constructor.
    - destruct (run (map UpdateLast _ ++ _) _); constructor. }
  eapply Forall_impl; [|exact Hgoal].
  intros s [Hi Ht]. unfold input_disabled, send_disabled.
  rewrite Hi, Ht. repeat split; reflexivity.
Qed.

End ChatMore.

Module ChatLifetime.
Import ChatBot ChatSpec ChatView MoreSpec.
Import ChatFacts ChatMore.

Lemma str_eqb_eq a : forall b, str_eqb a b = true <-> a = b.
Proof.
  induction a as [|x a IH]; intros [|y b]; cbn; split; intros H;
    try reflexivity; try discriminate.
  - apply andb_true_iff in H as [Hxy Hab]. apply N.eqb_eq in Hxy.
    apply IH in Hab. now subst.
  - injection H as -> ->. unfold unit_eqb. rewrite N.eqb_refl.
    now apply IH.
Qed.

(** X14: a key press reaches the collaborator exactly when the key is
    Enter without Shift, the input is not blank and the conversation
    handle is set; the default action is prevented exactly for Enter
    without Shift. *)
Theorem key_press_sends (ev : KeyboardEvent) (t : Turn) (st : State) :
  (fst (handleKeyDown ev t st) = true
   <-> key ev = ENTER /\ shiftKey ev = false) /\
  (filter is_request (snd (handleKeyDown ev t st))
   = [ SendMessageStream (input st) ]
   <-> key ev = ENTER /\ shiftKey ev = false /\
       trim (input st) <> [] /\ chatRef st <> None) /\
  (filter is_request (snd (handleKeyDown ev t st)) = []
   \/ filter is_request (snd (handleKeyDown ev t st))
      = [ SendMessageStream (input st) ]).
Proof.
  assert (Hreq : filter is_request (handleSend t st)
                 = if truthy (trim (input st))
                   then match chatRef st with
                        | Some _ => [ SendMessageStream (input st) ]
                        | None => []
                        end
                   else []).
  { destruct (truthy (trim (input st))) eqn:Hin;
      [|unfold handleSend; now rewrite Hin].
    destruct (chatRef st) as [c|] eqn:Hc;
      [exact (requests_of_send t st Hin Hc)|].
    unfold handleSend. now rewrite Hin, Hc. }
  assert (Hblank : truthy (trim (input st)) = true <-> trim (input st) <> [])
    by (destruct (trim (input st)); cbn; intuition congruence).
  unfold handleKeyDown.
  destruct (str_eqb (key ev) ENTER) eqn:Hk.
  - apply str_eqb_eq in Hk.
    destruct (shiftKey ev) eqn:Hs; cbn [andb negb fst snd filter];
      [intuition congruence|].
    rewrite Hreq.
    destruct (truthy (trim (input st))); [|intuition congruence].
    destruct (chatRef st); intuition congruence.
  - assert (Hne : key ev <> ENTER)
      by (intros H; apply str_eqb_eq in H; rewrite H in Hk; discriminate).
    cbn [andb fst snd filter]. intuition congruence.
Qed.

Lemma chat_step_extends o st :
  is_mount o = false ->
  exists st' tail,
    chat_step o st = Some st' /\
    messages st' = messages st ++ tail /\ chatRef st' = chatRef st.
Proof.
  intros Ho. destruct o as [now | s | t]; [discriminate | |];
    unfold chat_step; cbn [op_events].
  - eexists _, []. cbn. repeat split. now rewrite app_nil_r.
  - destruct (truthy (trim (input st))) eqn:Hin.
    + destruct (chatRef st) as [c|] eqn:Hc.
      * rewrite (run_handleSend t st Hin Hc). eexists _, _.
        repeat split. cbn. now rewrite Hc.
      * unfold handleSend. rewrite Hin, Hc. eexists _, [].
        cbn. repeat split; [now rewrite app_nil_r | now rewrite Hc].
    + unfold handleSend. rewrite Hin. eexists _, [].
      cbn. repeat split. now rewrite app_nil_r.
Qed.

Lemma chat_ops_extend ops : forall st,
  forallb (fun o => negb (is_mount o)) ops = true ->
  exists st' tail,
    chat_ops ops st = Some st' /\
    messages st' = messages st ++ tail /\ chatRef st' = chatRef st.
Proof.
  induction ops as [|o ops IH]; intros st Hops.
  - exists st, []. cbn. repeat split. now rewrite app_nil_r.
  - cbn [forallb] in Hops. apply andb_true_iff in Hops as [Ho Hops].
    apply negb_true_iff in Ho.
    destruct (chat_step_extends o st Ho) as (st1 & tail1 & Hs & Hm & Hc).
    destruct (IH st1 Hops) as (st2 & tail2 & Hs2 & Hm2 & Hc2).
    exists st2, (tail1 ++ tail2). cbn [chat_ops]. rewrite Hs.
    repeat split; [exact Hs2 | | congruence].
    now rewrite Hm2, Hm, app_assoc.
Qed.

(** X15: typing and sending never fail and never touch what is already
    in the transcript: after any sequence of them the old transcript is a
    prefix of the new one, and the conversation handle is the same. *)
Theorem history_is_kept (ops : list Op) (st : State) :
  forallb (fun o => negb (is_mount o)) ops = true ->
  exists st' tail,
    chat_ops ops st = Some st' /\
    messages st' = messages st ++ tail /\ chatRef st' = chatRef st.
Proof.
  revert st. induction ops as [|o ops IH]; intros st Hops.
  - exists st, []. cbn. repeat split. now rewrite app_nil_r.
  - cbn [forallb] in Hops. apply andb_true_iff in Hops as [Ho Hops].
    apply negb_true_iff in Ho.
    destruct (chat_step_extends o st Ho) as (st1 & tail1 & Hs & Hm & Hc).
    destruct (IH st1 Hops) as (st2 & tail2 & Hs2 & Hm2 & Hc2).
    exists st2, (tail1 ++ tail2). cbn [chat_ops]. rewrite Hs.
    repeat split; [exact Hs2 | | congruence].
    now rewrite Hm2, Hm, app_assoc.
Qed.

Lemma history_is_kept_witness :
  exists st' tail,
    chat_ops [ DoSend turn_refused; DoType (lit "Again?"); DoSend turn_hello ]
             sample_state = Some st' /\
    messages st' = messages sample_state ++ tail /\
    chatRef st' = chatRef sample_state.
Proof.
  exact (history_is_kept
           [ DoSend turn_refused; DoType (lit "Again?"); DoSend turn_hello ]
           sample_state eq_refl).
Defined.

(** X16: once mounted, the controller always holds its conversation
    handle and the greeting stays the first entry, whatever is typed and
    sent afterwards. *)
Theorem greeting_stays_first (now : Z) (ops : list Op) :
  forallb (fun o => negb (is_mount o)) ops = true ->
  exists st' tail,
    chat_ops (DoMount now :: ops) initial = Some st' /\
    messages st' = greeting now :: tail /\
    chatRef st' = Some tutor.
Proof.
  intros Hops. cbn [chat_ops]. unfold chat_step. cbn [op_events mount run apply].
  match goal with
  | |- context [chat_ops ops ?s] =>
      destruct (chat_ops_extend ops s Hops) as (st' & tail & Hs & Hm & Hc)
  end.
  exists st', tail. repeat split; assumption.
Qed.

Lemma greeting_stays_first_witness :
  exists st' tail,
    chat_ops [ DoMount 0; DoType (lit "Hi"); DoSend turn_hello ] initial
    = Some st' /\
    messages st' = greeting 0 :: tail /\
    chatRef st' = Some tutor.
Proof.
  exact (greeting_stays_first 0 [ DoType (lit "Hi"); DoSend turn_hello ]
           eq_refl).
Defined.

End ChatLifetime.

Module ChatEdge.
Import ChatBot ChatSpec ChatView MoreSpec.
Import ChatFacts ChatMore ChatLifetime.

(** X17: a stream that completes without any text leaves the empty
    placeholder as the last entry of the transcript, and no update of it
    ever happens. *)
Theorem silent_stream_leaves_empty_bubble
    (t : Turn) (st : State) (c : Chat) (chunks : list Chunk) :
  truthy (trim (input st)) = true ->
  chatRef st = Some c ->
  reply t = Opened chunks Completes ->
  fragments chunks = [] ->
  snapshots (handleSend t st) st = [] /\
  exists st', run (handleSend t st) st = Some st' /\
              final (messages st') = Some (placeholder t) /\
              is_empty_model (placeholder t) = true.
Proof.
  intros Hin Hc Hr Hf. split.
  - pose proof (snapshots_handleSend t st Hin Hc) as Hs.
    rewrite Hr, Hf in Hs. cbn in Hs.
    now destruct (snapshots (handleSend t st) st).
  - rewrite (run_handleSend t st Hin Hc). unfold reply_entries.
    rewrite Hr, Hf. eexists. split; [reflexivity|]. split; [|reflexivity].
    cbn [messages concat].
    change (messages st ++ [userMsg t st; ?x])
      with (messages st ++ [userMsg t st] ++ [x]).
    now rewrite app_assoc, final_snoc.
Qed.

Lemma silent_stream_leaves_empty_bubble_witness :
  truthy (trim (input sample_state)) = true /\
  chatRef sample_state = Some tutor /\
  fragments [ {| chunk_text := None |}; {| chunk_text := Some [] |} ] = [] /\
  snapshots (handleSend turn_silent sample_state) sample_state = [] /\
  exists st', run (handleSend turn_silent sample_state) sample_state = Some st' /\
              final (messages st') = Some (placeholder turn_silent) /\
              is_empty_model (placeholder turn_silent) = true.
Proof.
  split; [reflexivity|]. split; [reflexivity|]. split; [reflexivity|].
  exact (silent_stream_leaves_empty_bubble turn_silent sample_state
           (c := tutor)
           (chunks := [ {| chunk_text := None |}; {| chunk_text := Some [] |} ])
           eq_refl eq_refl eq_refl eq_refl).
Defined.

End ChatEdge.

(** ** More on the image generator *)

Module ImageMore.
Import ImageGenerator ImageSpec ImageView MoreSpec.
Import ImageFacts.

Lemma truthy_trim s : truthy (trim s) = true -> truthy s = true.
Proof. destruct s; [discriminate | reflexivity]. Qed.

Lemma filter_connect_call (p : Event -> bool) w :
  p CallOpenSelectKey = false -> filter p (handleConnectKey_call w) = [].
Proof.
  intros Hp. destruct w as [[h [o|]]|]; cbn; try reflexivity. now rewrite Hp.
Qed.

Lemma run_connect_call w st : run (handleConnectKey_call w) st = st.
Proof. now destruct w as [[h [o|]]|]. Qed.

(** The state when [handleGenerate] settles. *)
Lemma run_effects_generate w o st :
  truthy (trim (prompt st)) = true ->
  run (effects (handleGenerate w o st)) st
  = {| prompt := prompt st; resolution := resolution st;
       generatedImages := gallery_after o; isLoading := false;
       hasApiKey := key_after o (hasApiKey st) |}.
Proof.
  intros Hp. unfold handleGenerate, gallery_after, key_after. rewrite Hp.
  cbn [negb]. destruct o as [r | e].
  - cbn. now rewrite images_of_parts.
  - rewrite auth_test_spec. pose proof (no_text_no_auth e) as Hno.
    destruct (json_stringify e); try (rewrite Hno; reflexivity).
    destruct (looks_like_auth_failure e); [|reflexivity].
    now destruct w as [[h [k|]]|].
Qed.

Lemma deferred_generate w o st :
  truthy (trim (prompt st)) = true ->
  deferred (handleGenerate w o st)
  = match o with
    | Responds _ => []
    | Throws e => if looks_like_auth_failure e
                  then handleConnectKey_resume w else []
    end.
Proof.
  intros Hp. unfold handleGenerate. rewrite Hp. cbn [negb].
  destruct o as [r | e]; [reflexivity|].
  rewrite auth_test_spec. pose proof (no_text_no_auth e) as Hno.
  destruct (json_stringify e); try (rewrite Hno; reflexivity).
  now destruct (looks_like_auth_failure e).
Qed.

Lemma run_connect_resume w st :
  run (handleConnectKey_resume w) st
  = {| prompt := prompt st; resolution := resolution st;
       generatedImages := generatedImages st; isLoading := isLoading st;
       hasApiKey := if can_reconnect w then true else hasApiKey st |}.
Proof.
  destruct st. now destruct w as [[h [[u|e]|]]|].
Qed.

Lemma generate_blank w o st :
  truthy (trim (prompt st)) = false ->
  handleGenerate w o st = {| effects := []; ending := Returns; deferred := [] |}.
Proof. intros Hp. unfold handleGenerate. now rewrite Hp. Qed.

(** The state after a whole generation, deferred effects included. *)
Lemma step_generate w o st :
  truthy (trim (prompt st)) = true ->
  step w st (DoGenerate o)
  = {| prompt := prompt st; resolution := resolution st;
       generatedImages := gallery_after o; isLoading := false;
       hasApiKey := match o with
                    | Responds _ => hasApiKey st
                    | Throws e =>
                        if looks_like_auth_failure e then can_reconnect w
                        else hasApiKey st
                    end |}.
Proof.
  intros Hp. cbn [step]. rewrite (run_effects_generate w o st Hp),
    (deferred_generate w o st Hp).
  destruct o as [r | e]; [reflexivity|]. unfold key_after.
  destruct (looks_like_auth_failure e); [|reflexivity].
  rewrite run_connect_resume. cbn. now destruct (can_reconnect w).
Qed.

(** X18: choosing a resolution and then generating sends one request,
    with the prompt as typed and the resolution chosen, or none when the
    prompt is blank; the generation changes neither of the two. *)
Theorem request_carries_choice
    (w : option AIStudio) (o : Outcome) (st : State) (r : ImageResolution) :
  filter is_generation_request
         (effects (handleGenerate w o (step w st (DoChoose r))))
  = (if truthy (trim (prompt st)) then [ GenerateContent (prompt st) r ]
     else []) /\
  prompt (step w (step w st (DoChoose r)) (DoGenerate o)) = prompt st /\
  resolution (step w (step w st (DoChoose r)) (DoGenerate o)) = r.
Proof.
  assert (Hst : prompt (step w st (DoChoose r)) = prompt st
                /\ resolution (step w st (DoChoose r)) = r)
    by (split; reflexivity).
  destruct Hst as [Hprompt Hres]. revert Hprompt Hres.
  generalize (step w st (DoChoose r)). intros st1 Hprompt Hres.
  rewrite <- Hprompt, <- Hres.
  destruct (truthy (trim (prompt st1))) eqn:Hp.
  - rewrite (step_generate w o st1 Hp). split; [|split; reflexivity].
    unfold handleGenerate. rewrite Hp. cbn [negb].
    destruct o as [res | e]; [reflexivity|].
    rewrite auth_test_spec.
    destruct (json_stringify e); try reflexivity.
    destruct (looks_like_auth_failure e); [|reflexivity].
    cbn [effects]. rewrite !filter_app, filter_connect_call by reflexivity.
    reflexivity.
  - cbn [step]. rewrite (generate_blank w o st1 Hp). repeat split.
Qed.

(** X19: after a failure that looks like an authentication failure the
    key state ends present exactly when the host lets the user pick a key
    and the pick succeeds; else the key gate stays on screen. *)
Theorem reconnect_after_auth_failure
    (w : option AIStudio) (e : thrown) (st : State) :
  truthy (trim (prompt st)) = true ->
  looks_like_auth_failure e = true ->
  hasApiKey (step w st (DoGenerate (Throws e))) = can_reconnect w /\
  (render (step w st (DoGenerate (Throws e))) = KeyGate
   <-> can_reconnect w = false).
Proof.
  intros Hp He. rewrite (step_generate w (Throws e) st Hp), He.
  unfold render. cbn [hasApiKey].
  destruct (can_reconnect w); cbn; intuition discriminate.
Qed.

Lemma reconnect_after_auth_failure_witness :
  truthy (trim (prompt sample_state)) = true /\
  looks_like_auth_failure auth_error = true /\
  hasApiKey (step (Some studio) sample_state (DoGenerate (Throws auth_error)))
  = true /\
  hasApiKey (step None sample_state (DoGenerate (Throws auth_error))) = false.
Proof.
  split; [reflexivity|]. split; [vm_compute; reflexivity|].
  split.
  - exact (proj1 (reconnect_after_auth_failure (Some studio) auth_error
                    sample_state eq_refl eq_refl)).
  - exact (proj1 (reconnect_after_auth_failure None auth_error
                    sample_state eq_refl eq_refl)).
Defined.

(** X20: a prompt of white space only enables the generate button, but
    the click does nothing: no request, no change of state. *)
Theorem blank_prompt_click (w : option AIStudio) (o : Outcome) (st : State) :
  prompt st <> [] -> trim (prompt st) = [] -> isLoading st = false ->
  generate_disabled st = false /\
  effects (handleGenerate w o st) = [] /\
  step w st (DoGenerate o) = st.
Proof.
  intros Hne Hblank Hl.
  assert (Hp : truthy (trim (prompt st)) = false) by now rewrite Hblank.
  unfold generate_disabled. rewrite Hl. cbn [step].
  rewrite (generate_blank w o st Hp).
  destruct (prompt st); [now contradiction Hne | repeat split].
Qed.

Lemma blank_prompt_click_witness :
  prompt blank_prompt_state <> [] /\
  trim (prompt blank_prompt_state) = [] /\
  generate_disabled blank_prompt_state = false /\
  effects (handleGenerate None (Responds sample_response) blank_prompt_state)
  = [] /\
  step None blank_prompt_state (DoGenerate (Responds sample_response))
  = blank_prompt_state.
Proof.
  assert (Hne : prompt blank_prompt_state <> []) by discriminate.
  split; [exact Hne|]. split; [reflexivity|].
  exact (blank_prompt_click None (Responds sample_response)
           blank_prompt_state Hne eq_refl eq_refl).
Defined.

End ImageMore.

Module ImageScreen.
Import ImageGenerator ImageSpec ImageView MoreSpec.
Import ImageFacts ImageMore.

Lemma list_ascii_inj a : forall b,
  list_ascii_of_string a = list_ascii_of_string b -> a = b.
Proof.
  intros b H. rewrite <- (string_of_list_ascii_of_string a),
    <- (string_of_list_ascii_of_string b). now rewrite H.
Qed.

Lemma lit_inj a b : lit a = lit b -> a = b.
Proof.
  intros H. apply list_ascii_inj. unfold lit in H.
  revert H. generalize (list_ascii_of_string a) (list_ascii_of_string b).
  induction l as [|x l IH]; intros [|y l'] H; try discriminate;
    [reflexivity|].
  cbn in H. injection H as Hxy Hl. f_equal; [|now apply IH].
  rewrite <- (ascii_N_embedding x), <- (ascii_N_embedding y).
  now rewrite Hxy.
Qed.

Lemma decimal_inj i j : decimal i = decimal j -> i = j.
Proof.
  intros H. apply lit_inj in H.
  apply DecimalNat.Unsigned.to_uint_inj.
  pose proof (DecimalString.NilEmpty.usu (Nat.to_uint i)) as Hi.
  pose proof (DecimalString.NilEmpty.usu (Nat.to_uint j)) as Hj.
  rewrite H in Hi. rewrite Hi in Hj. now injection Hj.
Qed.

(** Two images of a gallery never get the same download name. *)
Lemma download_name_inj i j : download_name i = download_name j -> i = j.
Proof.
  unfold download_name. intros H. apply app_inv_head in H.
  apply app_inv_tail in H. now apply decimal_inj.
Qed.

Lemma NoDup_map_inj {A B} (f : A -> B) l :
  (forall x y, f x = f y -> x = y) -> NoDup l -> NoDup (map f l).
Proof.
  intros Hf Hl. induction Hl as [|x l Hx Hl IH]; cbn; constructor;
    [|exact IH].
  intros Hin. apply in_map_iff in Hin as (y & Hy & Hin).
  apply Hf in Hy. subst y. now apply Hx.
Qed.

Lemma tiles_from imgs : forall start,
  map src (mapi_from start
             (fun idx img => {| src := img; download := download_name idx |})
             imgs) = imgs /\
  map download
      (mapi_from start
         (fun idx img => {| src := img; download := download_name idx |})
         imgs)
  = map download_name (seq start (length imgs)).
Proof.
  induction imgs as [|img imgs IH]; intros start; [split; reflexivity|].
  destruct (IH (S start)) as [H1 H2]. cbn [mapi_from map length seq src download].
  now rewrite H1, H2.
Qed.

(** X21: the gallery shows the stored images in order, one tile each,
    and the download names of its tiles are pairwise different. *)
Theorem gallery_tiles (st : State) (tiles : list Tile) :
  canvas_of st = Gallery tiles ->
  map src tiles = generatedImages st /\
  NoDup (map download tiles) /\
  tiles <> [].
Proof.
  unfold canvas_of. destruct (isLoading st); [discriminate|].
  destruct (generatedImages st) as [|img imgs] eqn:Himgs; [discriminate|].
  cbn [length Nat.ltb Nat.leb]. intros H. injection H as <-.
  unfold mapi. destruct (tiles_from (img :: imgs) 0) as [H1 H2].
  split; [exact H1|]. split; [|discriminate].
  rewrite H2. apply NoDup_map_inj; [|apply seq_NoDup].
  intros i j. apply download_name_inj.
Qed.

Lemma gallery_tiles_witness :
  map src (tiles_of [ lit "data:a"; lit "data:b" ]) = [ lit "data:a"; lit "data:b" ] /\
  NoDup (map download (tiles_of [ lit "data:a"; lit "data:b" ])) /\
  tiles_of [ lit "data:a"; lit "data:b" ] <> [].
Proof.
  exact (gallery_tiles
           {| prompt := []; resolution := RES_1K;
              generatedImages := [ lit "data:a"; lit "data:b" ];
              isLoading := false; hasApiKey := true |}
           (tiles := tiles_of [ lit "data:a"; lit "data:b" ]) eq_refl).
Defined.

Lemma run_edits edits : forall s,
  generatedImages (run (map edit_event edits) s) = generatedImages s /\
  isLoading (run (map edit_event edits) s) = isLoading s /\
  hasApiKey (run (map edit_event edits) s) = hasApiKey s.
Proof.
  induction edits as [|e edits IH]; intros s; [repeat split|].
  cbn [map]. change (run (edit_event e :: map edit_event edits) s)
    with (run (map edit_event edits) (apply (edit_event e) s)).
  destruct (IH (apply (edit_event e) s)) as (H1 & H2 & H3).
  rewrite H1, H2, H3. now destruct e.
Qed.

Lemma prompt_edits edits : forall s s',
  prompt s = prompt s' ->
  prompt (run (map edit_event edits) s) = prompt (run (map edit_event edits) s').
Proof.
  induction edits as [|e edits IH]; intros s s' H; [exact H|].
  cbn [map]. change (run (edit_event e :: map edit_event edits) ?x)
    with (run (map edit_event edits) (apply (edit_event e) x)).
  apply IH. destruct e; [reflexivity | exact H].
Qed.

(** The effects of a generation before and after its request. *)
Lemma generation_in_two w o st :
  truthy (trim (prompt st)) = true ->
  until_request (effects (handleGenerate w o st))
  = [ SetIsLoading true; SetGeneratedImages [];
      GenerateContent (prompt st) (resolution st) ] /\
  forall s,
    run (past_request (effects (handleGenerate w o st))) s
    = {| prompt := prompt s; resolution := resolution s;
         generatedImages := match o with
                            | Responds _ => gallery_after o
                            | Throws _ => generatedImages s
                            end;
         isLoading := false;
         hasApiKey := key_after o (hasApiKey s) |}.
Proof.
  intros Hp. unfold handleGenerate, gallery_after, key_after. rewrite Hp.
  cbn [negb]. destruct o as [r | e].
  - split; [reflexivity|]. intros s1. cbn. now rewrite images_of_parts.
  - rewrite auth_test_spec. pose proof (no_text_no_auth e) as Hno.
    destruct (json_stringify e); try (rewrite Hno; split; reflexivity).
    destruct (looks_like_auth_failure e); [|split; reflexivity].
    split; [reflexivity|]. intros s1. now destruct w as [[h [k|]]|].
Qed.

(** X22: what is on screen when a generation with a non-blank prompt
    settles, the key being present before, whatever the user typed or
    chose while the request was out: the gallery when the response carried
    images, the plain hint when it carried none or when the request failed
    otherwise, the key gate when the failure looks like an authentication
    failure; the generate button is disabled exactly when the prompt box is
    empty by then. *)
Theorem screen_after_generation
    (w : option AIStudio) (o : Outcome) (st : State) (edits : list Edit) :
  truthy (trim (prompt st)) = true ->
  hasApiKey st = true ->
  render (settle_with_edits w o st edits)
  = match o with
    | Responds r =>
        Workspace (negb (truthy (prompt (run (map edit_event edits) st))))
          match map part_url (filter has_payload (response_parts r)) with
          | [] => Hint
          | imgs => Gallery (tiles_of imgs)
          end
    | Throws e =>
        if looks_like_auth_failure e then KeyGate
        else Workspace
               (negb (truthy (prompt (run (map edit_event edits) st)))) Hint
    end.
Proof.
  intros Hp Hk. unfold settle_with_edits. cbn zeta.
  destruct (generation_in_two w o st Hp) as [Hbefore Hafter].
  rewrite Hbefore, Hafter.
  match goal with
  | |- context [run (map edit_event edits) ?s1] =>
      destruct (run_edits edits s1) as (Hg & Hl & Hh);
      rewrite (prompt_edits edits st s1 eq_refl)
  end.
  rewrite Hg, Hh. cbn [run fold_left apply generatedImages hasApiKey].
  rewrite Hk. unfold render, generate_disabled, canvas_of, key_after,
    gallery_after.
  cbn [hasApiKey isLoading prompt generatedImages orb].
  destruct o as [r | e].
  - cbn [negb]. now destruct (map part_url _).
  - now destruct (looks_like_auth_failure e).
Qed.

Lemma screen_after_generation_witness :
  truthy (trim (prompt sample_state)) = true /\
  hasApiKey sample_state = true /\
  render (settle_with_edits None (Responds hollow_response) sample_state [])
  = Workspace false Hint /\
  render (settle_with_edits None (Responds hollow_response) sample_state
            [ EditResolution RES_4K; EditPrompt [] ])
  = Workspace true Hint.
Proof.
  split; [reflexivity|]. split; [reflexivity|]. split.
  - exact (screen_after_generation None (Responds hollow_response)
             sample_state [] eq_refl eq_refl).
  - exact (screen_after_generation None (Responds hollow_response)
             sample_state [ EditResolution RES_4K; EditPrompt [] ]
             eq_refl eq_refl).
Defined.

Lemma step_not_loading w o st :
  isLoading st = false -> isLoading (step w st o) = false.
Proof.
  intros Hl. destruct o as [ | | s | r | out]; try exact Hl.
  - cbn [step]. unfold checkApiKey.
    now destruct w as [[[[b|e]|] k]|].
  - cbn [step]. unfold handleConnectKey, handleConnectKey_call,
      handleConnectKey_resume.
    now destruct w as [[h [[u|e]|]]|].
  - destruct (truthy (trim (prompt st))) eqn:Hp.
    + now rewrite (step_generate w out st Hp).
    + cbn [step]. now rewrite (generate_blank w out st Hp).
Qed.

(** X23: between operations the controller is never left loading,
    whatever the host and the collaborator do: the spinner is not on
    screen and the button is disabled only for an empty prompt. *)
Theorem never_left_loading (w : option AIStudio) (ops : list Op) :
  isLoading (run_ops w ops initial) = false /\
  canvas_of (run_ops w ops initial) <> Spinner /\
  generate_disabled (run_ops w ops initial)
  = negb (truthy (prompt (run_ops w ops initial))).
Proof.
  assert (H : forall st, isLoading st = false ->
                         isLoading (run_ops w ops st) = false).
  { induction ops as [|o ops IH]; intros st Hl; [exact Hl|].
    rewrite run_ops_cons. apply IH. now apply step_not_loading. }
  specialize (H initial eq_refl).
  unfold canvas_of, generate_disabled. rewrite H.
  split; [reflexivity|]. split; [|reflexivity].
  destruct (Nat.ltb 0 _); discriminate.
Qed.

End ImageScreen.
